(** * semhash: the prototype symbolic encoder of src/main.py

    A shallow embedding of [get_first_function_decl], [pytype_to_z3type]
    and the [SolverVisitor] class, together with the parts of Python's
    [ast] module they call ([iter_child_nodes], [walk],
    [NodeVisitor.visit], [NodeVisitor.generic_visit]). *)

From stdpp Require Import base option list strings gmap.

(** ** Python syntax trees *)

(** [ast.arg]: a parameter name and its optional annotation. *)
Record ast_arg (A : Type) : Type := mk_arg {
  arg : string;
  annotation : option A
}.
Arguments mk_arg {A} _ _.
Arguments arg {A} _.
Arguments annotation {A} _.

(** [ast.arguments], fields in the order of [_fields]. *)
Record ast_arguments (A : Type) : Type := mk_arguments {
  posonlyargs : list (ast_arg A);
  args : list (ast_arg A);
  vararg : option (ast_arg A);
  kwonlyargs : list (ast_arg A);
  kw_defaults : list (option A);
  kwarg : option (ast_arg A);
  defaults : list A
}.
Arguments mk_arguments {A} _ _ _ _ _ _ _.
Arguments posonlyargs {A} _.
Arguments args {A} _.
Arguments vararg {A} _.
Arguments kwonlyargs {A} _.
Arguments kw_defaults {A} _.
Arguments kwarg {A} _.
Arguments defaults {A} _.

(** The node classes the program inspects have a constructor of their own.
    An object of any other class ([Module], [Constant], [Tuple],
    [Attribute], [If], [Add], [Load], ...) is [Node cls children]: its class
    name and its child nodes in field order, which is all the generic
    traversals use. The [ctx] and [op] fields hold such objects. *)
#[warnings="-register-all"]
Inductive ast : Type :=
  | Name (id : string) (ctx : ast)
  | Subscript (value : ast) (slice : ast) (ctx : ast)
  | BinOp (left : ast) (op : ast) (right : ast)
  | Assign (targets : list ast) (value : ast)
  | Return (value : option ast)
  | FunctionDef (name : string) (fargs : ast_arguments ast) (body : list ast)
                (decorator_list : list ast) (returns : option ast)
  | Node (cls : string) (children : list ast).

(** [node.__class__.__name__] *)
Definition class_name (node : ast) : string :=
  match node with
  | Name _ _ => "Name"
  | Subscript _ _ _ => "Subscript"
  | BinOp _ _ _ => "BinOp"
  | Assign _ _ => "Assign"
  | Return _ => "Return"
  | FunctionDef _ _ _ _ _ => "FunctionDef"
  | Node cls _ => cls
  end.

Definition Load : ast := Node "Load" [].
Definition Store : ast := Node "Store" [].
Definition Add : ast := Node "Add" [].

(** [arg] and [arguments] objects are nodes too; [walk] meets them as
    children of a [FunctionDef]. *)
Definition arg_node (a : ast_arg ast) : ast :=
  Node "arg" (option_list (annotation a)).
Definition arguments_node (a : ast_arguments ast) : ast :=
  Node "arguments"
    (map arg_node (posonlyargs a) ++ map arg_node (args a)
     ++ option_list (arg_node <$> vararg a)
     ++ map arg_node (kwonlyargs a)
     ++ omap id (kw_defaults a)
     ++ option_list (arg_node <$> kwarg a)
     ++ defaults a).

(** [ast.iter_child_nodes]: every field that is a node, and every node in a
    field that is a list, in the order of the class's [_fields] (for a
    [FunctionDef]: name, args, body, decorator_list, returns, type_comment;
    for an [Assign]: targets, value, type_comment). *)
Definition iter_child_nodes (node : ast) : list ast :=
  match node with
  | Name _ ctx => [ctx]
  | Subscript value slice ctx => [value; slice; ctx]
  | BinOp left_ op right_ => [left_; op; right_]
  | Assign targets value => targets ++ [value]
  | Return value => option_list value
  | FunctionDef _ fargs body decorator_list returns =>
      arguments_node fargs :: body ++ decorator_list ++ option_list returns
  | Node _ children => children
  end.

(** Number of objects in a tree; it bounds the iterations of [walk]. *)
Fixpoint size (node : ast) : nat :=
  let size_opt (o : option ast) :=
    match o with Some t => size t | None => 0 end in
  let size_arg (a : ast_arg ast) := S (size_opt (annotation a)) in
  let size_opt_arg (o : option (ast_arg ast)) :=
    match o with Some a => size_arg a | None => 0 end in
  S match node with
    | Name _ ctx => size ctx
    | Subscript value slice ctx => size value + (size slice + size ctx)
    | BinOp left_ op right_ => size left_ + (size op + size right_)
    | Assign targets value => sum_list_with size targets + size value
    | Return value => size_opt value
    | FunctionDef _ fargs body decorator_list returns =>
        S (sum_list_with size_arg (posonlyargs fargs)
           + sum_list_with size_arg (args fargs)
           + size_opt_arg (vararg fargs)
           + sum_list_with size_arg (kwonlyargs fargs)
           + sum_list_with size_opt (kw_defaults fargs)
           + size_opt_arg (kwarg fargs)
           + sum_list_with size (defaults fargs))
        + sum_list_with size body
        + sum_list_with size decorator_list
        + size_opt returns
    | Node _ children => sum_list_with size children
    end.

(** [ast.walk]: a queue holding the root; each iteration pops the head,
    appends its children at the back and yields it. *)
Fixpoint walk_loop (fuel : nat) (todo : list ast) : list ast :=
  match fuel, todo with
  | S fuel', node :: rest => node :: walk_loop fuel' (rest ++ iter_child_nodes node)
  | _, _ => []
  end.

Definition walk (node : ast) : list ast := walk_loop (size node) [node].

Definition isinstance_FunctionDef (node : ast) : bool :=
  match node with FunctionDef _ _ _ _ _ => true | _ => false end.

(** The [for] loop of [get_first_function_decl] over the nodes the
    generator yields: return at the first match, fall off the end (the
    implicit [None]) otherwise. *)
Fixpoint first_FunctionDef (nodes : list ast) : option ast :=
  match nodes with
  | [] => None
  | node :: rest =>
      if isinstance_FunctionDef node then Some node else first_FunctionDef rest
  end.

Definition get_first_function_decl (code : ast) : option ast :=
  first_FunctionDef (walk code).

(** ** The z3 objects the program builds *)

(** [Z3PyType]: the datatype "Z3PyValue" and its five constructors. *)
Module Z3PyType.
Inductive t : Type :=
  | int
  | str
  | bool
  | list (type : t)
  | none.
End Z3PyType.

Inductive z3sort : Type :=
  | BitVecSort (sz : N).

(** The only expressions built are bit-vector constants. *)
Inductive z3expr : Type :=
  | BitVec (name : string) (bv : N).

(** [e.sort()] *)
Definition sort (e : z3expr) : z3sort :=
  match e with BitVec _ bv => BitVecSort bv end.

(** [z3.Function(name, *sig)]: the domain sorts followed by the range. *)
Inductive z3func : Type :=
  | Function (name : string) (sig : list z3sort).

(** [z3.Solver]: its parameters and the formulas asserted into it. *)
Record Solver : Type := mk_Solver {
  params : gmap string Z;
  assertions : list z3expr
}.

Definition Solver_new : Solver := {| params := ∅; assertions := [] |}.

Definition Solver_set (key : string) (v : Z) (s : Solver) : Solver :=
  {| params := <[key := v]> (params s); assertions := assertions s |}.

(** ** Exceptions *)

(** The message of each [raise] of the program; an interpolated node is
    kept as the node. *)
Inductive message : Type :=
  | list_type_without_arg_not_implemented
  | Unimplemented_type (id : string)
  | list_type_not_yet_implemented
  | Unimplemented_subscript_type (pytype : ast)
  | not_a_type_annotation (pytype : ast)
  | Only_one_function_declaration_is_allowed
  | Unimplemented_assignment_target (target : ast)
  | Undefined_variable (id : string).

Inductive exception : Type :=
  | NotImplementedError (m : message)
  | ValueError (m : message).

Inductive result (A : Type) : Type :=
  | Returns (a : A)
  | Raises (e : exception).
Arguments Returns {A} _.
Arguments Raises {A} _.

(** ** The type annotation resolver *)

Definition pytype_to_z3type (pytype : ast) : result Z3PyType.t :=
  match pytype with
  | Name id _ =>
      if String.eqb id "int" then Returns Z3PyType.int
      else if String.eqb id "str" then Returns Z3PyType.str
      else if String.eqb id "bool" then Returns Z3PyType.bool
      else if String.eqb id "list" then
        Raises (NotImplementedError list_type_without_arg_not_implemented)
      else if String.eqb id "None" then Returns Z3PyType.none
      else Raises (NotImplementedError (Unimplemented_type id))
  | Subscript value _ _ =>
      match value with
      | Name id _ =>
          if String.eqb id "List" then
            Raises (NotImplementedError list_type_not_yet_implemented)
          else Raises (NotImplementedError (Unimplemented_subscript_type pytype))
      | _ => Raises (NotImplementedError (Unimplemented_subscript_type pytype))
      end
  | _ => Raises (ValueError (not_a_type_annotation pytype))
  end.

(** ** The visitor's state *)

(** What a visitor method returns and what [env] holds: [None] or a z3
    expression. *)
Inductive pyvalue : Type :=
  | PyNone
  | PyZ3 (e : z3expr).

Record SolverVisitor : Type := mk_SolverVisitor {
  solver : Solver;
  fundecl : option ast;
  z3_args : list z3expr;
  z3_ret : option z3expr;
  z3_func : option z3func;
  env : gmap string pyvalue
}.

(** [SolverVisitor.__init__] *)
Definition __init__ : SolverVisitor :=
  {| solver := Solver_set "timeout" 1000 Solver_new;
     fundecl := None;
     z3_args := [];
     z3_ret := None;
     z3_func := None;
     env := ∅ |}.

(** [check_solved] asks the external solver and is not modelled. *)

(** A visitor object and the lines written to standard output so far. *)
Record world : Type := mk_world {
  self : SolverVisitor;
  stdout : list string
}.

(** Computations that read and update the world and return or raise; what
    was done before a [raise] stays done. *)
Definition M (A : Type) : Type := world -> result A * world.

Definition ret {A} (a : A) : M A := fun w => (Returns a, w).

Definition raise {A} (e : exception) : M A := fun w => (Raises e, w).

Definition bind {A B} (m : M A) (k : A -> M B) : M B :=
  fun w =>
    match m w with
    | (Returns a, w') => k a w'
    | (Raises e, w') => (Raises e, w')
    end.

Declare Scope py_scope.
Delimit Scope py_scope with py.
Notation "x <- m ;; k" := (bind m (fun x => k))
  (at level 100, m at next level, right associativity) : py_scope.
Notation "m ;; k" := (bind m (fun _ => k))
  (at level 100, right associativity) : py_scope.
Local Open Scope py_scope.

Definition get_self : M SolverVisitor := fun w => (Returns (self w), w).

Definition put_self (v : SolverVisitor) : M unit :=
  fun w => (Returns tt, {| self := v; stdout := stdout w |}).

Definition print (line : string) : M unit :=
  fun w => (Returns tt, {| self := self w; stdout := stdout w ++ [line] |}).

Definition set_fundecl (node : ast) (v : SolverVisitor) : SolverVisitor :=
  {| solver := solver v; fundecl := Some node; z3_args := z3_args v;
     z3_ret := z3_ret v; z3_func := z3_func v; env := env v |}.

Definition append_z3_args (c : z3expr) (v : SolverVisitor) : SolverVisitor :=
  {| solver := solver v; fundecl := fundecl v; z3_args := z3_args v ++ [c];
     z3_ret := z3_ret v; z3_func := z3_func v; env := env v |}.

Definition set_z3_ret (c : z3expr) (v : SolverVisitor) : SolverVisitor :=
  {| solver := solver v; fundecl := fundecl v; z3_args := z3_args v;
     z3_ret := Some c; z3_func := z3_func v; env := env v |}.

Definition set_z3_func (f : z3func) (v : SolverVisitor) : SolverVisitor :=
  {| solver := solver v; fundecl := fundecl v; z3_args := z3_args v;
     z3_ret := z3_ret v; z3_func := Some f; env := env v |}.

(** [self.env[key] = x] *)
Definition set_env (key : string) (x : pyvalue) (v : SolverVisitor) : SolverVisitor :=
  {| solver := solver v; fundecl := fundecl v; z3_args := z3_args v;
     z3_ret := z3_ret v; z3_func := z3_func v; env := <[key := x]> (env v) |}.

Definition modify_self (f : SolverVisitor -> SolverVisitor) : M unit :=
  v <- get_self ;; put_self (f v).

(** A [for] loop whose body returns nothing. *)
Fixpoint for_each {A} (body : A -> M unit) (items : list A) : M unit :=
  match items with
  | [] => ret tt
  | x :: rest => body x ;; for_each body rest
  end.

(** ** The methods of [SolverVisitor] *)

Section Methods.

(** [super().visit], that is [NodeVisitor.visit] on this object: the
    dispatch on the node's class, through which the methods reach each
    other. *)
Variable super_visit : ast -> M pyvalue.

(** [SolverVisitor.visit] *)
Definition visit (node : ast) : M pyvalue :=
  super_visit node ;; ret PyNone.

(** [NodeVisitor.generic_visit], to which [SolverVisitor.generic_visit]
    forwards: [self.visit] on every child node. *)
Definition generic_visit (node : ast) : M pyvalue :=
  for_each (fun item => visit item ;; ret tt) (iter_child_nodes node) ;;
  ret PyNone.

Definition visit_FunctionDef (name : string) (fargs : ast_arguments ast)
    (body decorator_list : list ast) (returns : option ast) : M pyvalue :=
  let node := FunctionDef name fargs body decorator_list returns in
  v <- get_self ;;
  match fundecl v with
  | Some _ => raise (ValueError Only_one_function_declaration_is_allowed)
  | None =>
      modify_self (set_fundecl node) ;;
      for_each (fun a =>
                  let const := BitVec ("__arg_" +:+ arg a) 64 in
                  modify_self (append_z3_args const) ;;
                  modify_self (set_env (arg a) (PyZ3 const)))
               (args fargs) ;;
      modify_self (set_z3_ret (BitVec "__ret" 64)) ;;
      v <- get_self ;;
      let fun_args := replicate (length (z3_args v) + 1) (BitVecSort 64) in
      modify_self (set_z3_func (Function name fun_args)) ;;
      for_each (fun stmt => super_visit stmt ;; ret tt) body ;;
      ret PyNone
  end.

Definition visit_BinOp (left_ op right_ : ast) : M pyvalue :=
  print ("binop: " +:+ class_name op) ;;
  generic_visit (BinOp left_ op right_).

(** The body of the loop over [node.targets]. *)
Definition visit_Assign_target (value : ast) (target : ast) : M unit :=
  match target with
  | Name id _ =>
      print ("assign: " +:+ id) ;;
      x <- visit value ;;
      modify_self (set_env id x)
  | _ =>
      raise (NotImplementedError (Unimplemented_assignment_target target))
  end.

Definition visit_Assign (targets : list ast) (value : ast) : M pyvalue :=
  for_each (visit_Assign_target value) targets ;;
  ret PyNone.

Definition visit_Name (id : string) : M pyvalue :=
  print ("name: " +:+ id) ;;
  v <- get_self ;;
  match env v !! id with
  | Some x => ret x
  | None => raise (ValueError (Undefined_variable id))
  end.

Definition visit_Return (value : option ast) : M pyvalue :=
  print "return" ;;
  generic_visit (Return value).

End Methods.

(** [NodeVisitor.visit]: call [visit_<class name>] when the object has it,
    [generic_visit] otherwise. [SolverVisitor] has the five methods above;
    the [visit_Constant] it inherits ends in [generic_visit]. The
    interpreter's recursion limit is not part of the model: on a tree nested
    so deep that Python raises [RecursionError], this function goes on. The
    theorems about visits are therefore stated of every outcome of a visit,
    or relate the outcome of a visit to the outcomes of the visits it
    starts. *)
Fixpoint NodeVisitor_visit (node : ast) {struct node} : M pyvalue :=
  match node with
  | FunctionDef name fargs body decorator_list returns =>
      visit_FunctionDef NodeVisitor_visit name fargs body decorator_list returns
  | BinOp left_ op right_ => visit_BinOp NodeVisitor_visit left_ op right_
  | Assign targets value => visit_Assign NodeVisitor_visit targets value
  | Name id _ => visit_Name id
  | Return None => visit_Return NodeVisitor_visit None
  | Return (Some value) => visit_Return NodeVisitor_visit (Some value)
  | Subscript value slice ctx =>
      generic_visit NodeVisitor_visit (Subscript value slice ctx)
  | Node cls children => generic_visit NodeVisitor_visit (Node cls children)
  end.

(** [SolverVisitor().visit(code)], as the program's entry point runs it: a
    new visitor, whatever was written to standard output before. *)
Definition encode (code : ast) (out : list string) : result pyvalue * world :=
  visit NodeVisitor_visit code {| self := __init__; stdout := out |}.

(** ** Notions the properties are stated with *)

(** [descendant m n]: [m] is [n] or occurs below it. *)
Inductive descendant (m : ast) : ast -> Prop :=
  | descendant_self : descendant m m
  | descendant_child n c :
      c ∈ iter_child_nodes n -> descendant m c -> descendant m n.

(** The closed set of the specification: the names [int], [str], [bool],
    [None], and [List[X]] for [X] in the set. *)
Fixpoint in_closed_set (pytype : ast) : bool :=
  match pytype with
  | Name id _ =>
      String.eqb id "int" || String.eqb id "str" || String.eqb id "bool"
      || String.eqb id "None"
  | Subscript (Name id _) slice _ => String.eqb id "List" && in_closed_set slice
  | _ => false
  end.

(** [int | None], a union annotation. *)
Definition int_or_None : ast :=
  BinOp (Name "int" Load) (Node "BitOr" []) (Node "Constant" []).

(** [List[int]] *)
Definition List_int : ast :=
  Subscript (Name "List" Load) (Name "int" Load) Load.

(** [preserves R m]: running [m] takes every world to one related to it
    by [R], whether [m] returns or raises. *)
Definition preserves (R : world -> world -> Prop) {A} (m : M A) : Prop :=
  forall w, R w (m w).2.

(** The solver object and what was asserted into it are the same. *)
Definition same_solver (w w' : world) : Prop :=
  solver (self w') = solver (self w).

(** Once [fundecl] is set, it and the three [z3_*] fields stay as they
    are. *)
Definition same_decl (w w' : world) : Prop :=
  is_Some (fundecl (self w)) ->
  fundecl (self w') = fundecl (self w) /\ z3_args (self w') = z3_args (self w) /\
  z3_ret (self w') = z3_ret (self w) /\ z3_func (self w') = z3_func (self w).

(** [stdout_frame m]: [m] never reads standard output and only appends to
    it. *)
Definition stdout_frame {A} (m : M A) : Prop :=
  forall v out,
    let r := m {| self := v; stdout := [] |} in
    m {| self := v; stdout := out |}
    = (r.1, {| self := self r.2; stdout := out ++ stdout r.2 |}).

Definition isinstance_Name (node : ast) : bool :=
  match node with Name _ _ => true | _ => false end.

(** The constant [visit_FunctionDef] makes for a parameter. *)
Definition arg_const (a : ast_arg ast) : z3expr :=
  BitVec ("__arg_" +:+ arg a) 64.

(** The visitor as [visit_FunctionDef] has it when its loop over the body
    starts, from a world whose [fundecl] was [None]. *)
Definition function_entry (name : string) (fargs : ast_arguments ast)
    (body decorator_list : list ast) (returns : option ast) (w : world) : world :=
  let z3_args' := z3_args (self w) ++ map arg_const (args fargs) in
  {| self :=
       {| solver := solver (self w);
          fundecl := Some (FunctionDef name fargs body decorator_list returns);
          z3_args := z3_args';
          z3_ret := Some (BitVec "__ret" 64);
          z3_func := Some (Function name (replicate (length z3_args' + 1) (BitVecSort 64)));
          env := foldl (fun e a => <[arg a := PyZ3 (arg_const a)]> e)
                       (env (self w)) (args fargs) |};
     stdout := stdout w |}.

(** The specification's words for a parameter: its annotation resolves to a
    Value Sort. *)
Definition resolves_annotation (a : ast_arg ast) : Prop :=
  exists pytype t, annotation a = Some pytype /\ pytype_to_z3type pytype = Returns t.


(** ** Inputs *)

Definition Constant : ast := Node "Constant" [].

(** The two functions of the program's entry point. *)
Definition CODE1 : ast :=
  FunctionDef "f"
    (mk_arguments [] [mk_arg "x" (Some (Name "int" Load))] None [] [] None [])
    [Assign [Name "x" Store] Constant;
     Assign [Name "y" Store] Constant;
     Return (Some (BinOp (Name "x" Load) Add (Name "y" Load)))]
    []
    (Some List_int).

Definition CODE2 : ast :=
  FunctionDef "f"
    (mk_arguments [] [mk_arg "x" (Some (Name "int" Load))] None [] [] None [])
    [Return (Some (BinOp (Name "x" Load) Add Constant))]
    []
    (Some (Name "int" Load)).

(** [def f(x: float): return x] *)
Definition float_identity : ast :=
  FunctionDef "f"
    (mk_arguments [] [mk_arg "x" (Some (Name "float" Load))] None [] [] None [])
    [Return (Some (Name "x" Load))]
    []
    None.

(** [y = 2] *)
Definition assign_y : ast := Assign [Name "y" Store] Constant.

(** [a = b.c = z] *)
Definition assign_a_attribute : ast :=
  Assign [Name "a" Store; Node "Attribute" [Name "b" Load; Store]] (Name "z" Load).

(** ** Notions for the traversal as a whole *)

(** The children of a list of nodes, in order: what [walk] has appended to
    its queue once it has popped the whole list. *)
Definition child_generation (nodes : list ast) : list ast :=
  flat_map iter_child_nodes nodes.

(** The objects [d] levels below the given nodes, left to right. *)
Fixpoint generation_from (d : nat) (nodes : list ast) : list ast :=
  match d with
  | 0 => nodes
  | S d' => generation_from d' (child_generation nodes)
  end.

(** The objects [d] levels below the root. *)
Definition generation (d : nat) (code : ast) : list ast :=
  generation_from d [code].

(** The first [n] generations, one after the other. *)
Fixpoint generations (n : nat) (nodes : list ast) : list ast :=
  match n with
  | 0 => []
  | S n' => nodes ++ generations n' (child_generation nodes)
  end.

(** A [FunctionDef] lies where a visit of [node] gets to before anything
    else can stop it: [node] itself, a child that [generic_visit] visits, or
    the right-hand side of an assignment whose first target is a name. *)
Fixpoint meets_FunctionDef (node : ast) : bool :=
  match node with
  | FunctionDef _ _ _ _ _ => true
  | Name _ _ => false
  | Subscript value slice ctx =>
      meets_FunctionDef value || meets_FunctionDef slice || meets_FunctionDef ctx
  | BinOp left_ op right_ =>
      meets_FunctionDef left_ || meets_FunctionDef op || meets_FunctionDef right_
  | Assign (Name _ _ :: _) value => meets_FunctionDef value
  | Assign _ _ => false
  | Return (Some value) => meets_FunctionDef value
  | Return None => false
  | Node _ children => existsb meets_FunctionDef children
  end.

(** Trees without statements and definitions: names, subscripts, binary
    operations and nodes of the classes the visitor has no method for. *)
Fixpoint is_expression (node : ast) : bool :=
  match node with
  | Name _ _ => true
  | Subscript value slice ctx =>
      is_expression value && is_expression slice && is_expression ctx
  | BinOp left_ op right_ =>
      is_expression left_ && is_expression op && is_expression right_
  | Node _ children => forallb is_expression children
  | _ => false
  end.

(** The names [visit_Name] is called for while an expression is visited,
    in that order. The [ctx] of a name is not visited. *)
Fixpoint loaded_names (node : ast) : list string :=
  match node with
  | Name id _ => [id]
  | Subscript value slice ctx =>
      loaded_names value ++ loaded_names slice ++ loaded_names ctx
  | BinOp left_ op right_ =>
      loaded_names left_ ++ loaded_names op ++ loaded_names right_
  | Node _ children => flat_map loaded_names children
  | _ => []
  end.

(** The first of the names that the environment does not bind. *)
Fixpoint first_unbound (e : gmap string pyvalue) (ids : list string) : option string :=
  match ids with
  | [] => None
  | id :: rest =>
      match e !! id with
      | None => Some id
      | Some _ => first_unbound e rest
      end
  end.

(** What visiting an expression in world [w] comes to: the visitor is left
    as it was, and the visit raises for the first unbound name or else
    returns. *)
Definition visits_as_expression (node : ast) : Prop :=
  forall w,
    self (NodeVisitor_visit node w).2 = self w /\
    match first_unbound (env (self w)) (loaded_names node) with
    | Some id => (NodeVisitor_visit node w).1 = Raises (ValueError (Undefined_variable id))
    | None => exists x, (NodeVisitor_visit node w).1 = Returns x
    end.

(** The environment after [self.env[target.id] = None] for every target
    that is a name. *)
Definition bind_targets (e : gmap string pyvalue) (targets : list ast) :
    gmap string pyvalue :=
  foldl (fun e target =>
           match target with Name id _ => <[id := PyNone]> e | _ => e end)
        e targets.

(** Statements of a straight-line body: an assignment of an expression to
    one or more names, a return of an expression, a bare return. *)
Definition simple_statement (stmt : ast) : bool :=
  match stmt with
  | Assign [] _ => false
  | Assign targets value => forallb isinstance_Name targets && is_expression value
  | Return (Some value) => is_expression value
  | Return None => true
  | _ => false
  end.

(** A use-before-definition check of a straight-line body: the first name
    loaded while unbound, or else the environment at the end. A return does
    not end the check. *)
Fixpoint check_names (e : gmap string pyvalue) (body : list ast) :
    string + gmap string pyvalue :=
  match body with
  | [] => inr e
  | Assign targets value :: rest =>
      match first_unbound e (loaded_names value) with
      | Some id => inl id
      | None => check_names (bind_targets e targets) rest
      end
  | Return (Some value) :: rest =>
      match first_unbound e (loaded_names value) with
      | Some id => inl id
      | None => check_names e rest
      end
  | _ :: rest => check_names e rest
  end.

(** The environment in which the body of a function is visited: every
    parameter of [args.args] bound to its constant. *)
Definition parameters_env (fargs : ast_arguments ast) : gmap string pyvalue :=
  foldl (fun e a => <[arg a := PyZ3 (BitVec ("__arg_" +:+ arg a) 64)]> e)
        ∅ (args fargs).

(** Every binding is [None] or the constant made for a parameter of that
    name. *)
Definition env_bindings_own (v : SolverVisitor) : Prop :=
  forall key x,
    env v !! key = Some x ->
    x = PyNone \/ x = PyZ3 (BitVec ("__arg_" +:+ key) 64).

(** Names that are bound stay bound. *)
Definition keeps_bound (w w' : world) : Prop :=
  forall key, is_Some (env (self w) !! key) -> is_Some (env (self w') !! key).

(** [env_bindings_own] is kept. *)
Definition keeps_bindings_own (w w' : world) : Prop :=
  env_bindings_own (self w) -> env_bindings_own (self w').

(** ** More inputs *)

(** A function nested in a class that comes before a function of the
    module: [class C: def m(): return] followed by [def g(): return]. *)
Definition nested_method : ast :=
  FunctionDef "m" (mk_arguments [] [] None [] [] None []) [Return None] [] None.
Definition top_level_g : ast :=
  FunctionDef "g" (mk_arguments [] [] None [] [] None []) [Return None] [] None.
Definition class_then_function : ast :=
  Node "Module" [Node "ClassDef" [nested_method]; top_level_g].

(** [def f(x): def g(): return] *)
Definition outer_with_nested : ast :=
  FunctionDef "f" (mk_arguments [] [mk_arg "x" None] None [] [] None [])
    [nested_method] [] None.

(** [def f(x): y = z = x + 1; return y; w = q] *)
Definition straight_line_f : ast :=
  FunctionDef "f" (mk_arguments [] [mk_arg "x" None] None [] [] None [])
    [Assign [Name "y" Store; Name "z" Store] (BinOp (Name "x" Load) Add Constant);
     Return (Some (Name "y" Load));
     Assign [Name "w" Store] (Name "q" Load)]
    [] None.

(** ** The visits a visit starts *)

(** The classes whose visit is [generic_visit], straight away or after one
    printed line. *)
Definition visited_generically (node : ast) : bool :=
  match node with
  | Subscript _ _ _ | BinOp _ _ _ | Return _ | Node _ _ => true
  | _ => false
  end.

(** The world in which [generic_visit] starts on such a node: after the
    line [visit_BinOp] or [visit_Return] prints. *)
Definition prologue (node : ast) (w : world) : world :=
  match node with
  | BinOp _ op _ =>
      {| self := self w; stdout := stdout w ++ ["binop: " +:+ class_name op] |}
  | Return _ => {| self := self w; stdout := stdout w ++ ["return"] |}
  | _ => w
  end.

(** [starts node w c w']: the visit of [node] begun in world [w] begins a
    visit of [c] in world [w']. [generic_visit] visits a child once the
    children before it have been visited and returned; [visit_Assign]
    visits the right-hand side for a bare-name target once the loop has
    returned for the targets before it; [visit_FunctionDef], on a visitor
    without a function definition, visits a statement of the body once the
    statements before it have been visited and returned. *)
Inductive starts : ast -> world -> ast -> world -> Prop :=
  | starts_child node w before c after w' :
      visited_generically node = true ->
      iter_child_nodes node = before ++ c :: after ->
      for_each (fun item => visit NodeVisitor_visit item ;; ret tt) before
               (prologue node w) = (Returns tt, w') ->
      starts node w c w'
  | starts_value names id ctx rest value w w' :
      for_each (visit_Assign_target NodeVisitor_visit value) names w
      = (Returns tt, w') ->
      starts (Assign (names ++ Name id ctx :: rest) value) w value
             {| self := self w'; stdout := stdout w' ++ ["assign: " +:+ id] |}
  | starts_stmt name fargs before c after decorator_list returns w w' :
      fundecl (self w) = None ->
      for_each (fun stmt => NodeVisitor_visit stmt ;; ret tt) before
               (function_entry name fargs (before ++ c :: after) decorator_list returns w)
      = (Returns tt, w') ->
      starts (FunctionDef name fargs (before ++ c :: after) decorator_list returns) w c w'.

(** [reaches node w d w']: while [node] is visited from world [w], a visit
    of [d] begins in world [w'], at any depth. *)
Inductive reaches : ast -> world -> ast -> world -> Prop :=
  | reaches_self node w : reaches node w node w
  | reaches_step node w c w1 d w2 :
      starts node w c w1 -> reaches c w1 d w2 -> reaches node w d w2.

(** [def f(): return z] *)
Definition return_z : ast :=
  FunctionDef "f" (mk_arguments [] [] None [] [] None [])
    [Return (Some (Name "z" Load))] [] None.

(** [def f(a, /): return a], with a positional-only parameter. *)
Definition positional_only_f : ast :=
  FunctionDef "f" (mk_arguments [mk_arg "a" None] [] None [] [] None [])
    [Return (Some (Name "a" Load))] [] None.

(** * Properties *)

(** ** [ast.walk] reaches every object of the tree *)

Lemma size_option_list (o : option ast) :
  sum_list_with size (option_list o) = match o with Some t => size t | None => 0 end.
Proof. destruct o; simpl; lia. Qed.

Lemma size_arg_node (a : ast_arg ast) :
  size (arg_node a) = S (match annotation a with Some t => size t | None => 0 end).
Proof. unfold arg_node. simpl. by rewrite size_option_list. Qed.

Lemma size_arg_nodes (l : list (ast_arg ast)) :
  sum_list_with size (map arg_node l)
  = sum_list_with
      (fun a => S (match annotation a with Some t => size t | None => 0 end)) l.
Proof.
  induction l as [|a l IH]; [done|].
  cbn [map sum_list_with]. rewrite IH, size_arg_node. lia.
Qed.

Lemma size_opt_arg_node (o : option (ast_arg ast)) :
  sum_list_with size (option_list (arg_node <$> o))
  = match o with
    | Some a => S (match annotation a with Some t => size t | None => 0 end)
    | None => 0
    end.
Proof.
  destruct o as [a|]; [|done].
  cbn [fmap option_fmap option_map]. by rewrite size_option_list, size_arg_node.
Qed.

Lemma size_kw_defaults (l : list (option ast)) :
  sum_list_with size (omap id l)
  = sum_list_with (fun o => match o with Some t => size t | None => 0 end) l.
Proof.
  induction l as [|[t|] l IH]; [done| |]; cbn; rewrite ?IH; lia.
Qed.

(** A node counts for one more than its children together. *)
Lemma size_iter_child_nodes (node : ast) :
  size node = S (sum_list_with size (iter_child_nodes node)).
Proof.
  destruct node as [id ctx|value slice ctx|left_ op right_|targets value
                    |value|name fargs body decorator_list returns|cls children].
  - simpl. lia.
  - simpl. lia.
  - simpl. lia.
  - cbn [iter_child_nodes]. rewrite sum_list_with_app. simpl. lia.
  - cbn [iter_child_nodes]. rewrite size_option_list. by destruct value.
  - cbn [iter_child_nodes sum_list_with].
    rewrite !sum_list_with_app, size_option_list.
    unfold arguments_node.
    change (size (Node "arguments" ?l)) with (S (sum_list_with size l)).
    rewrite !sum_list_with_app, !size_arg_nodes, !size_opt_arg_node, size_kw_defaults.
    destruct fargs as [p a v k kd kw d]. simpl. lia.
  - done.
Qed.

Lemma size_pos (node : ast) : 0 < size node.
Proof. rewrite size_iter_child_nodes. lia. Qed.

(** With fuel for every object waiting in the queue or below it, the loop
    yields exactly the descendants of the queued nodes. *)
Lemma walk_loop_descendants (fuel : nat) :
  forall todo : list ast,
    sum_list_with size todo <= fuel ->
    forall m, m ∈ walk_loop fuel todo <-> exists t, t ∈ todo /\ descendant m t.
Proof.
  induction fuel as [|fuel IH]; intros todo Hfuel m.
  - destruct todo as [|node rest].
    + simpl. rewrite elem_of_nil. split; [done|].
      intros (t & Ht & _). by apply elem_of_nil in Ht.
    + simpl in Hfuel. pose proof (size_pos node). lia.
  - destruct todo as [|node rest].
    + simpl. rewrite elem_of_nil. split; [done|].
      intros (t & Ht & _). by apply elem_of_nil in Ht.
    + cbn [walk_loop]. rewrite elem_of_cons, IH.
      2:{ rewrite sum_list_with_app. simpl in Hfuel.
          rewrite (size_iter_child_nodes node) in Hfuel. lia. }
      split.
      * intros [->|(t & Ht & Hd)].
        -- exists node. split; [left|constructor].
        -- apply elem_of_app in Ht as [Ht|Ht].
           ++ exists t. split; [by right|done].
           ++ exists node. split; [left|by eapply descendant_child].
      * intros (t & Ht & Hd). apply elem_of_cons in Ht as [->|Ht].
        -- destruct Hd as [|n c Hc Hd]; [by left|].
           right. exists c. split; [apply elem_of_app; by right|done].
        -- right. exists t. split; [apply elem_of_app; by left|done].
Qed.

Lemma elem_of_walk (code m : ast) : m ∈ walk code <-> descendant m code.
Proof.
  unfold walk. rewrite walk_loop_descendants by (simpl; lia).
  split.
  - intros (t & Ht & Hd). by apply list_elem_of_singleton in Ht as ->.
  - intros Hd. exists code. split; [by apply list_elem_of_singleton|done].
Qed.

(** The loop returns the first [FunctionDef] of the list it runs over. *)
Lemma first_FunctionDef_Some (nodes : list ast) (node : ast) :
  first_FunctionDef nodes = Some node ->
  isinstance_FunctionDef node = true /\
  exists before after,
    nodes = before ++ node :: after /\
    Forall (fun n => isinstance_FunctionDef n = false) before.
Proof.
  induction nodes as [|n rest IH]; [done|]. simpl.
  destruct (isinstance_FunctionDef n) eqn:Hn.
  - intros [= ->]. split; [done|]. by exists [], rest.
  - intros Hrest. destruct (IH Hrest) as (Hfd & before & after & -> & Hall).
    split; [done|]. exists (n :: before), after. split; [done|]. by constructor.
Qed.

Lemma first_FunctionDef_None (nodes : list ast) :
  first_FunctionDef nodes = None ->
  forall n, n ∈ nodes -> isinstance_FunctionDef n = false.
Proof.
  induction nodes as [|n rest IH]; intros Hnone m Hm.
  - by apply elem_of_nil in Hm.
  - simpl in Hnone. destruct (isinstance_FunctionDef n) eqn:Hn; [done|].
    apply elem_of_cons in Hm as [->|Hm]; [done|]. by apply IH.
Qed.

(** More fuel than the queue needs changes nothing: [walk] stops because
    the queue is empty. *)
Lemma walk_loop_fuel (fuel fuel' : nat) :
  forall todo : list ast,
    sum_list_with size todo <= fuel ->
    sum_list_with size todo <= fuel' ->
    walk_loop fuel todo = walk_loop fuel' todo.
Proof.
  revert fuel'. induction fuel as [|fuel IH]; intros fuel' todo Hfuel Hfuel'.
  - destruct todo as [|node rest]; [by destruct fuel'|].
    simpl in Hfuel. pose proof (size_pos node). lia.
  - destruct todo as [|node rest]; [by destruct fuel'|].
    simpl in Hfuel, Hfuel'. rewrite (size_iter_child_nodes node) in Hfuel, Hfuel'.
    destruct fuel' as [|fuel']; [lia|].
    cbn [walk_loop]. f_equal. apply IH; rewrite sum_list_with_app; lia.
Qed.

(** C10. [get_first_function_decl] is total. When it returns a node, that
    node is a [FunctionDef] yielded by [ast.walk] and no node yielded before
    it is one. It returns [None] when the tree has no [FunctionDef], and
    only then. *)
Theorem get_first_function_decl_first (code : ast) :
  match get_first_function_decl code with
  | Some node =>
      isinstance_FunctionDef node = true /\
      exists before after,
        walk code = before ++ node :: after /\
        Forall (fun n => isinstance_FunctionDef n = false) before
  | None =>
      forall n, descendant n code -> isinstance_FunctionDef n = false
  end /\
  ((forall n, descendant n code -> isinstance_FunctionDef n = false) ->
   get_first_function_decl code = None).
Proof.
  unfold get_first_function_decl.
  destruct (first_FunctionDef (walk code)) as [node|] eqn:Hfirst.
  - destruct (first_FunctionDef_Some _ _ Hfirst) as (Hfd & before & after & Hwalk & Hall).
    split; [by eauto|]. intros Hnone.
    rewrite Hnone in Hfd; [done|].
    apply elem_of_walk. rewrite Hwalk. apply elem_of_app. right. by left.
  - split; [|done].
    intros n Hn. apply (first_FunctionDef_None _ Hfirst). by apply elem_of_walk.
Qed.

Lemma get_first_function_decl_first_witness :
  let code := Node "Module" [assign_y] in
  (forall n, descendant n code -> isinstance_FunctionDef n = false) /\
  get_first_function_decl code = None.
Proof.
  intros code.
  assert (forall n, descendant n code -> isinstance_FunctionDef n = false) as Hnone.
  { intros n Hn. apply elem_of_walk in Hn. vm_compute in Hn.
    repeat (apply elem_of_cons in Hn as [->|Hn]; [reflexivity|]).
    by apply elem_of_nil in Hn. }
  split; [exact Hnone|].
  exact (proj2 (get_first_function_decl_first code) Hnone).
Defined.

(** The classes of the objects of [CODE1] inside a module, in the order
    [ast.walk] yields them. *)
Example walk_CODE1 :
  class_name <$> walk (Node "Module" [CODE1])
  = ["Module"; "FunctionDef"; "arguments"; "Assign"; "Assign"; "Return";
     "Subscript"; "arg"; "Name"; "Constant"; "Name"; "Constant"; "BinOp";
     "Name"; "Name"; "Load"; "Name"; "Store"; "Store"; "Name"; "Add";
     "Name"; "Load"; "Load"; "Load"; "Load"; "Load"].
Proof. reflexivity. Qed.

(** The first function of a module comes out whole, and a tree without one
    gives [None]. *)
Example get_first_function_decl_CODE2 :
  get_first_function_decl (Node "Module" [Node "Expr" [Constant]; CODE2; CODE1])
  = Some CODE2 /\
  get_first_function_decl (Node "Module" [assign_y]) = None.
Proof. split; reflexivity. Qed.

(** ** The type annotation resolver: what resolves and how the rest fails *)

Lemma pytype_to_z3type_Name (id : string) (ctx : ast) :
  in_closed_set (Name id ctx) = false ->
  exists m, pytype_to_z3type (Name id ctx) = Raises (NotImplementedError m).
Proof.
  simpl. intros Hout.
  destruct (String.eqb id "int"); [done|].
  destruct (String.eqb id "str"); [done|].
  destruct (String.eqb id "bool"); [done|].
  destruct (String.eqb id "list"); [by eexists|].
  destruct (String.eqb id "None"); [done|].
  by eexists.
Qed.

Lemma pytype_to_z3type_Subscript (value slice ctx : ast) :
  exists m,
    pytype_to_z3type (Subscript value slice ctx) = Raises (NotImplementedError m).
Proof.
  simpl. destruct value; try by eexists.
  destruct (String.eqb id "List"); by eexists.
Qed.

(** C5, as the code has it. No annotation outside the closed set resolves,
    and none gets a default sort. A name outside the set, the bare [list]
    among them, and every subscript fail with [NotImplementedError]; a node
    of any other class fails with the [ValueError] "not a type
    annotation". *)
Theorem pytype_to_z3type_outside_closed_set (pytype : ast) :
  in_closed_set pytype = false ->
  match pytype with
  | Name id _ =>
      (exists m, pytype_to_z3type pytype = Raises (NotImplementedError m)) /\
      (id = "list" ->
       pytype_to_z3type pytype
       = Raises (NotImplementedError list_type_without_arg_not_implemented))
  | Subscript _ _ _ =>
      exists m, pytype_to_z3type pytype = Raises (NotImplementedError m)
  | _ => pytype_to_z3type pytype = Raises (ValueError (not_a_type_annotation pytype))
  end.
Proof.
  intros Hout. destruct pytype; try reflexivity.
  - split; [by apply pytype_to_z3type_Name|]. by intros ->.
  - apply pytype_to_z3type_Subscript.
Qed.

Lemma pytype_to_z3type_outside_closed_set_witness :
  in_closed_set (Name "list" Load) = false /\
  ((exists m, pytype_to_z3type (Name "list" Load) = Raises (NotImplementedError m)) /\
   ("list" = "list" ->
    pytype_to_z3type (Name "list" Load)
    = Raises (NotImplementedError list_type_without_arg_not_implemented))).
Proof.
  split; [reflexivity|].
  apply (pytype_to_z3type_outside_closed_set (Name "list" Load)). reflexivity.
Defined.

(** C5 fails as written: the union annotation [int | None] is outside the
    closed set and is rejected with a [ValueError], not with the
    unsupported-type error. *)
Lemma pytype_to_z3type_union_ValueError :
  in_closed_set int_or_None = false /\
  pytype_to_z3type int_or_None = Raises (ValueError (not_a_type_annotation int_or_None)) /\
  ~ exists m, pytype_to_z3type int_or_None = Raises (NotImplementedError m).
Proof.
  split; [reflexivity|]. split; [reflexivity|]. intros [m Hm]. discriminate Hm.
Qed.

(** C6, as the code has it. A subscript of [List], whatever its element
    annotation, fails with "list type not yet implemented", and no
    annotation at all resolves to a list sort. *)
Theorem pytype_to_z3type_List_not_implemented (pytype slice ctx ctx' : ast) (t : Z3PyType.t) :
  pytype_to_z3type (Subscript (Name "List" ctx') slice ctx)
  = Raises (NotImplementedError list_type_not_yet_implemented)
  /\ pytype_to_z3type pytype <> Returns (Z3PyType.list t).
Proof.
  split; [reflexivity|].
  destruct pytype; try discriminate.
  - simpl. repeat (case_match; try discriminate).
  - destruct (pytype_to_z3type_Subscript pytype1 pytype2 pytype3) as [m ->].
    discriminate.
Qed.

(** C6 fails as written: [List[int]] does not resolve to [List(Int)]. *)
Lemma pytype_to_z3type_List_int_raises :
  pytype_to_z3type List_int
  = Raises (NotImplementedError list_type_not_yet_implemented)
  /\ pytype_to_z3type List_int <> Returns (Z3PyType.list Z3PyType.int).
Proof. split; [reflexivity|discriminate]. Qed.

(** ** Induction over the nodes a visit reaches *)

Section ast_visit_ind.
Variable P : ast -> Prop.
Hypothesis P_Name : forall id ctx, P (Name id ctx).
Hypothesis P_Subscript : forall value slice ctx,
  P value -> P slice -> P ctx -> P (Subscript value slice ctx).
Hypothesis P_BinOp : forall left_ op right_,
  P left_ -> P op -> P right_ -> P (BinOp left_ op right_).
Hypothesis P_Assign : forall targets value, P value -> P (Assign targets value).
Hypothesis P_Return_None : P (Return None).
Hypothesis P_Return_Some : forall value, P value -> P (Return (Some value)).
Hypothesis P_FunctionDef : forall name fargs body decorator_list returns,
  Forall P body -> P (FunctionDef name fargs body decorator_list returns).
Hypothesis P_Node : forall cls children, Forall P children -> P (Node cls children).

Lemma ast_visit_ind (node : ast) : P node.
Proof.
  revert node. fix IH 1.
  intros [id ctx|value slice ctx|left_ op right_|targets value
          |[value|]|name fargs body decorator_list returns|cls children].
  - apply P_Name.
  - apply P_Subscript; apply IH.
  - apply P_BinOp; apply IH.
  - apply P_Assign, IH.
  - apply P_Return_Some, IH.
  - apply P_Return_None.
  - apply P_FunctionDef.
    induction body as [|stmt body IHbody]; constructor; [apply IH|apply IHbody].
  - apply P_Node.
    induction children as [|c children IHch]; constructor; [apply IH|apply IHch].
Qed.
End ast_visit_ind.

(** ** Properties every visit inherits from the primitive steps *)

Section Structural.
Variable good : forall A, M A -> Prop.
Arguments good {A} _.
Hypothesis good_ret : forall A (a : A), good (ret a).
Hypothesis good_raise : forall A e, good (@raise A e).
Hypothesis good_bind : forall A B (m : M A) (k : A -> M B),
  good m -> (forall a, good (k a)) -> good (bind m k).

Lemma good_for_each A (body : A -> M unit) (items : list A) :
  Forall (fun x => good (body x)) items -> good (for_each body items).
Proof.
  induction 1 as [|x items Hx _ IH]; simpl; [apply good_ret|].
  apply good_bind; [done|]. intros _. apply IH.
Qed.

Hypothesis good_print : forall line, good (print line).
Hypothesis good_get_self : good get_self.
Hypothesis good_set_env : forall key x, good (modify_self (set_env key x)).
Hypothesis good_visit_FunctionDef :
  forall super_visit name fargs body decorator_list returns,
    Forall (fun stmt => good (super_visit stmt)) body ->
    good (visit_FunctionDef super_visit name fargs body decorator_list returns).

Lemma good_visit super_visit node :
  good (super_visit node) -> good (visit super_visit node).
Proof. intros H. apply good_bind; [done|]. intros _. apply good_ret. Qed.

Lemma good_generic_visit super_visit node :
  Forall (fun c => good (super_visit c)) (iter_child_nodes node) ->
  good (generic_visit super_visit node).
Proof.
  intros H. apply good_bind; [|intros _; apply good_ret].
  apply good_for_each. eapply Forall_impl; [exact H|].
  intros c Hc. apply good_bind; [by apply good_visit|]. intros _. apply good_ret.
Qed.

Lemma good_visit_Assign super_visit targets value :
  good (super_visit value) -> good (visit_Assign super_visit targets value).
Proof.
  intros H. apply good_bind; [|intros _; apply good_ret].
  apply good_for_each. apply Forall_forall. intros target _.
  destruct target; try apply good_raise.
  apply good_bind; [apply good_print|]. intros _.
  apply good_bind; [by apply good_visit|]. intros x. apply good_set_env.
Qed.

Lemma good_visit_Name id : good (visit_Name id).
Proof.
  apply good_bind; [apply good_print|]. intros _.
  apply good_bind; [apply good_get_self|]. intros v.
  destruct (env v !! id); [apply good_ret|apply good_raise].
Qed.

Lemma good_NodeVisitor_visit (node : ast) : good (NodeVisitor_visit node).
Proof.
  induction node using ast_visit_ind.
  - apply good_visit_Name.
  - apply good_generic_visit. simpl. by repeat constructor.
  - apply good_bind; [apply good_print|]. intros _.
    apply good_generic_visit. simpl. by repeat constructor.
  - by apply good_visit_Assign.
  - apply good_bind; [apply good_print|]. intros _.
    apply good_generic_visit. simpl. constructor.
  - apply good_bind; [apply good_print|]. intros _.
    apply good_generic_visit. simpl. by repeat constructor.
  - by apply good_visit_FunctionDef.
  - by apply good_generic_visit.
Qed.
End Structural.

(** ** Relations every step preserves *)

Section Preserves.
Variable R : world -> world -> Prop.
Context `{!PreOrder R}.

Lemma preserves_ret A (a : A) : preserves R (ret a).
Proof. intros w. reflexivity. Qed.

Lemma preserves_raise A e : preserves R (@raise A e).
Proof. intros w. reflexivity. Qed.

Lemma preserves_get_self : preserves R get_self.
Proof. intros w. reflexivity. Qed.

Lemma preserves_bind A B (m : M A) (k : A -> M B) :
  preserves R m -> (forall a, preserves R (k a)) -> preserves R (bind m k).
Proof.
  intros Hm Hk w. unfold bind. specialize (Hm w).
  destruct (m w) as [[a|e] w1]; simpl in *; [|done].
  etrans; [exact Hm|apply Hk].
Qed.

Lemma preserves_for_each A (body : A -> M unit) (items : list A) :
  Forall (fun x => preserves R (body x)) items ->
  preserves R (for_each body items).
Proof.
  apply (good_for_each (fun A => @preserves R A));
    [apply preserves_ret|apply preserves_bind].
Qed.

Lemma preserves_modify_self (f : SolverVisitor -> SolverVisitor) :
  (forall w, R w {| self := f (self w); stdout := stdout w |}) ->
  preserves R (modify_self f).
Proof. intros Hf w. apply Hf. Qed.
End Preserves.

Global Instance same_solver_PreOrder : PreOrder same_solver.
Proof.
  split.
  - by intros w.
  - intros w1 w2 w3 H12 H23. unfold same_solver in *. congruence.
Qed.

Global Instance same_decl_PreOrder : PreOrder same_decl.
Proof.
  split.
  - by intros w _.
  - intros w1 w2 w3 H12 H23 Hsome. destruct (H12 Hsome) as (Hf & Ha & Hr & Hz).
    destruct H23 as (Hf' & Ha' & Hr' & Hz'); [by rewrite Hf|].
    unfold same_decl. repeat split; congruence.
Qed.

Ltac preserves_steps :=
  repeat first
    [ apply preserves_ret; apply _
    | apply preserves_raise; apply _
    | apply preserves_get_self; apply _
    | apply preserves_modify_self; intros ?; done
    | apply preserves_bind; [apply _| |intros ?]
    | apply preserves_for_each; [apply _|apply Forall_forall; intros ? ?] ].

(** No visit touches the solver: nothing is ever asserted. *)
Lemma NodeVisitor_visit_same_solver (node : ast) :
  preserves same_solver (NodeVisitor_visit node).
Proof.
  apply (good_NodeVisitor_visit (fun A => @preserves same_solver A)).
  - apply preserves_ret; apply _.
  - apply preserves_raise; apply _.
  - apply preserves_bind; apply _.
  - by intros line w.
  - apply preserves_get_self; apply _.
  - by intros key x w.
  - intros super_visit name fargs body decorator_list returns Hbody.
    unfold visit_FunctionDef.
    apply preserves_bind; [apply _|apply preserves_get_self; apply _|].
    intros v. destruct (fundecl v); [apply preserves_raise; apply _|].
    preserves_steps.
    rewrite Forall_forall in Hbody. by apply Hbody.
Qed.

(** A visitor that has met a function definition keeps [fundecl],
    [z3_args], [z3_ret] and [z3_func] for good. *)
Lemma NodeVisitor_visit_same_decl (node : ast) :
  preserves same_decl (NodeVisitor_visit node).
Proof.
  apply (good_NodeVisitor_visit (fun A => @preserves same_decl A)).
  - apply preserves_ret; apply _.
  - apply preserves_raise; apply _.
  - apply preserves_bind; apply _.
  - by intros line w.
  - apply preserves_get_self; apply _.
  - by intros key x w.
  - intros super_visit name fargs body decorator_list returns _ w Hsome.
    unfold visit_FunctionDef, bind, get_self. simpl.
    destruct (fundecl (self w)) eqn:Hfd; [done|]. by destruct Hsome.
Qed.

(** ** Standard output is written, never read *)

Lemma stdout_frame_ret A (a : A) : stdout_frame (ret a).
Proof. intros v out. simpl. by rewrite app_nil_r. Qed.

Lemma stdout_frame_raise A e : stdout_frame (@raise A e).
Proof. intros v out. simpl. by rewrite app_nil_r. Qed.

Lemma stdout_frame_get_self : stdout_frame get_self.
Proof. intros v out. simpl. by rewrite app_nil_r. Qed.

Lemma stdout_frame_print line : stdout_frame (print line).
Proof. by intros v out. Qed.

Lemma stdout_frame_modify_self f : stdout_frame (modify_self f).
Proof. intros v out. cbn. by rewrite app_nil_r. Qed.

Lemma stdout_frame_bind A B (m : M A) (k : A -> M B) :
  stdout_frame m -> (forall a, stdout_frame (k a)) -> stdout_frame (bind m k).
Proof.
  intros Hm Hk v out. unfold bind. rewrite (Hm v out). simpl.
  destruct (m {| self := v; stdout := [] |}) as [[a|e] [v1 out1]]; simpl; [|done].
  rewrite (Hk a v1 (out ++ out1)), (Hk a v1 out1). simpl.
  by rewrite (assoc_L (++)).
Qed.

Lemma stdout_frame_for_each A (body : A -> M unit) (items : list A) :
  Forall (fun x => stdout_frame (body x)) items ->
  stdout_frame (for_each body items).
Proof.
  apply (good_for_each (@stdout_frame)); [apply stdout_frame_ret|apply stdout_frame_bind].
Qed.

Ltac stdout_frame_steps :=
  repeat first
    [ apply stdout_frame_ret
    | apply stdout_frame_raise
    | apply stdout_frame_get_self
    | apply stdout_frame_print
    | apply stdout_frame_modify_self
    | apply stdout_frame_bind; [|intros ?]
    | apply stdout_frame_for_each; apply Forall_forall; intros ? ? ].

Lemma NodeVisitor_visit_stdout_frame (node : ast) :
  stdout_frame (NodeVisitor_visit node).
Proof.
  apply (good_NodeVisitor_visit (@stdout_frame)).
  - apply stdout_frame_ret.
  - apply stdout_frame_raise.
  - apply stdout_frame_bind.
  - apply stdout_frame_print.
  - apply stdout_frame_get_self.
  - intros key x. apply stdout_frame_modify_self.
  - intros super_visit name fargs body decorator_list returns Hbody.
    unfold visit_FunctionDef.
    apply stdout_frame_bind; [apply stdout_frame_get_self|].
    intros v. destruct (fundecl v); [apply stdout_frame_raise|].
    stdout_frame_steps.
    rewrite Forall_forall in Hbody. by apply Hbody.
Qed.

(** ** Name references *)

(** One dispatch on a name: the line printed, then the lookup. *)
Lemma visit_Name_follows (id : string) (ctx : ast) (w : world) :
  NodeVisitor_visit (Name id ctx) w
  = (match env (self w) !! id with
     | Some x => Returns x
     | None => Raises (ValueError (Undefined_variable id))
     end,
     {| self := self w; stdout := stdout w ++ ["name: " +:+ id] |}).
Proof.
  simpl. unfold visit_Name, bind, print, get_self. simpl.
  by destruct (env (self w) !! id).
Qed.

(** ** Parameters *)

Lemma for_each_parameters (l : list (ast_arg ast)) (w : world) :
  for_each (fun a =>
              modify_self (append_z3_args (arg_const a)) ;;
              modify_self (set_env (arg a) (PyZ3 (arg_const a)))) l w
  = (Returns tt,
     {| self :=
          {| solver := solver (self w);
             fundecl := fundecl (self w);
             z3_args := z3_args (self w) ++ map arg_const l;
             z3_ret := z3_ret (self w);
             z3_func := z3_func (self w);
             env := foldl (fun e a => <[arg a := PyZ3 (arg_const a)]> e)
                          (env (self w)) l |};
        stdout := stdout w |}).
Proof.
  revert w. induction l as [|a l IH]; intros [[s f za zr zf e] out].
  - simpl. by rewrite app_nil_r.
  - cbn [for_each]. unfold bind at 1. cbn. rewrite IH. cbn.
    by rewrite <- (assoc_L (++)).
Qed.

Lemma lookup_foldl_parameters (l : list (ast_arg ast)) (e : gmap string pyvalue)
    (key : string) :
  foldl (fun e a => <[arg a := PyZ3 (arg_const a)]> e) e l !! key
  = if decide (key ∈ map arg l) then Some (PyZ3 (BitVec ("__arg_" +:+ key) 64))
    else e !! key.
Proof.
  revert e. induction l as [|a l IH]; intros e; simpl.
  - done.
  - rewrite IH. destruct (decide (key ∈ map arg l)) as [Hin|Hnin].
    + rewrite decide_True; [done|]. apply elem_of_cons. by right.
    + destruct (decide (key = arg a)) as [->|Hne].
      * rewrite lookup_insert_eq, decide_True; [done|]. apply elem_of_cons. by left.
      * rewrite lookup_insert_ne by done. rewrite decide_False; [done|].
        intros [?|?]%elem_of_cons; done.
Qed.

(** From a visitor that has met no function definition, [visit_FunctionDef]
    is its loop over the body, started in [function_entry]. *)
Lemma visit_FunctionDef_entry super_visit name fargs body decorator_list returns w :
  fundecl (self w) = None ->
  visit_FunctionDef super_visit name fargs body decorator_list returns w
  = (for_each (fun stmt => super_visit stmt ;; ret tt) body ;; ret PyNone)
      (function_entry name fargs body decorator_list returns w).
Proof.
  intros Hnone. unfold visit_FunctionDef.
  unfold bind at 1. cbn [get_self]. rewrite Hnone.
  unfold bind at 1. cbn [modify_self bind get_self put_self self stdout].
  unfold bind at 1.
  change (fun a : ast_arg ast => _) with
    (fun a => modify_self (append_z3_args (arg_const a)) ;;
              modify_self (set_env (arg a) (PyZ3 (arg_const a)))).
  rewrite for_each_parameters. reflexivity.
Qed.

Lemma encode_world (code : ast) (out : list string) :
  (encode code out).2 = (NodeVisitor_visit code {| self := __init__; stdout := out |}).2.
Proof.
  unfold encode, visit, bind.
  by destruct (NodeVisitor_visit code _) as [[x|e] w].
Qed.

(** The run of the program's entry point on [CODE1]: the lines it prints
    and the visitor it leaves. *)
Example encode_CODE1 :
  let r := encode CODE1 [] in
  r.1 = Returns PyNone /\
  stdout r.2 = ["assign: x"; "assign: y"; "return"; "binop: Add"; "name: x"; "name: y"] /\
  z3_args (self r.2) = [BitVec "__arg_x" 64] /\
  z3_func (self r.2) = Some (Function "f" [BitVecSort 64; BitVecSort 64]) /\
  env (self r.2) = {["x" := PyNone; "y" := PyNone]}.
Proof. repeat split; reflexivity. Qed.

(** An unbound name stops the whole encoding. *)
Example encode_undefined_variable :
  (encode (FunctionDef "f" (mk_arguments [] [] None [] [] None [])
             [Return (Some (Name "z" Load))] [] None) []).1
  = Raises (ValueError (Undefined_variable "z")).
Proof. reflexivity. Qed.

(** What a new visitor holds of a function definition once it has visited
    it, whether the visit returned or raised. *)
Lemma encode_FunctionDef_decl name fargs body decorator_list returns out :
  let node := FunctionDef name fargs body decorator_list returns in
  let v := self (encode node out).2 in
  fundecl v = Some node /\
  z3_args v = map arg_const (args fargs) /\
  z3_ret v = Some (BitVec "__ret" 64) /\
  z3_func v
  = Some (Function name (replicate (length (map arg_const (args fargs)) + 1) (BitVecSort 64))).
Proof.
  intros node v. subst v node. rewrite encode_world.
  cbn [NodeVisitor_visit]. rewrite visit_FunctionDef_entry by done.
  set (w1 := function_entry _ _ _ _ _ _).
  assert (preserves same_decl
            (for_each (fun stmt => NodeVisitor_visit stmt ;; ret tt) body ;; ret PyNone))
    as Hbody.
  { preserves_steps. apply NodeVisitor_visit_same_decl. }
  destruct (Hbody w1) as (-> & -> & -> & ->); [by eexists|]. done.
Qed.

(** C2, as the code has it. Whatever their annotations, the parameters in
    [node.args.args] get the constants [__arg_<name>], all of the 64-bit
    bit-vector sort; these are the visitor's [z3_args], and when the loop
    over the body starts the environment binds each parameter's name to its
    constant. No annotation is resolved. *)
Theorem visit_FunctionDef_parameters name fargs body decorator_list returns out :
  let node := FunctionDef name fargs body decorator_list returns in
  let w0 := {| self := __init__; stdout := out |} in
  let w1 := function_entry name fargs body decorator_list returns w0 in
  NodeVisitor_visit node w0
  = (for_each (fun stmt => NodeVisitor_visit stmt ;; ret tt) body ;; ret PyNone) w1 /\
  (forall a, a ∈ args fargs ->
     env (self w1) !! arg a = Some (PyZ3 (BitVec ("__arg_" +:+ arg a) 64)) /\
     sort (BitVec ("__arg_" +:+ arg a) 64) = BitVecSort 64) /\
  z3_args (self w1) = map (fun a => BitVec ("__arg_" +:+ arg a) 64) (args fargs) /\
  z3_args (self (encode node out).2) = z3_args (self w1).
Proof.
  intros node w0 w1. split; [|split; [|split]].
  - subst node. cbn [NodeVisitor_visit]. by apply visit_FunctionDef_entry.
  - intros a Ha. split; [|done]. subst w1. cbn [function_entry self env].
    rewrite lookup_foldl_parameters, decide_True; [done|].
    apply list_elem_of_fmap. by exists a.
  - done.
  - apply encode_FunctionDef_decl.
Qed.

(** C2 fails as written: the parameter of [float_identity] is annotated
    [float], which does not resolve, and the function is encoded all the
    same, with the very constant that [CODE2] gets for its [int]
    parameter. *)
Lemma float_parameter_not_resolved :
  (encode float_identity []).1 = Returns PyNone /\
  z3_args (self (encode float_identity []).2) = [BitVec "__arg_x" 64] /\
  z3_args (self (encode CODE2 []).2) = z3_args (self (encode float_identity []).2) /\
  pytype_to_z3type (Name "float" Load)
  = Raises (NotImplementedError (Unimplemented_type "float")) /\
  ~ resolves_annotation (mk_arg "x" (Some (Name "float" Load))).
Proof.
  split; [reflexivity|]. split; [reflexivity|]. split; [reflexivity|].
  split; [reflexivity|].
  intros (pytype & t & [= <-] & Ht). discriminate Ht.
Qed.

(** ** Assignments *)


(** C8 fails as written: [a = b.c = z] has an attribute target, and with
    [z] unbound it raises the [ValueError] "Undefined variable", not the
    unsupported-construct error. *)
Lemma assign_a_attribute_ValueError :
  let r := NodeVisitor_visit assign_a_attribute {| self := __init__; stdout := [] |} in
  r.1 = Raises (ValueError (Undefined_variable "z")) /\
  ~ exists m, r.1 = Raises (NotImplementedError m).
Proof.
  split; [reflexivity|]. intros [m Hm]. vm_compute in Hm. discriminate Hm.
Qed.

(** ** Return statements and the solver *)

(** C4, as the code has it. A return statement visits the returned
    expression and raises what that visit raises; it asserts nothing. No
    visit changes the solver, so after encoding any tree the solver holds no
    constraint; the return constant of a function is the bit-vector constant
    [__ret] that [visit_FunctionDef] makes, and nothing relates it to the
    returned expression. *)
Theorem visit_Return_asserts_nothing :
  (forall value w,
     let rhs := NodeVisitor_visit value
                  {| self := self w; stdout := stdout w ++ ["return"] |} in
     NodeVisitor_visit (Return (Some value)) w
     = (match rhs.1 with Returns _ => Returns PyNone | Raises e => Raises e end,
        rhs.2)) /\
  (forall w,
     NodeVisitor_visit (Return None) w
     = (Returns PyNone, {| self := self w; stdout := stdout w ++ ["return"] |})) /\
  (forall value w,
     solver (self (NodeVisitor_visit (Return value) w).2) = solver (self w)) /\
  (forall code out, assertions (solver (self (encode code out).2)) = []) /\
  (forall name fargs body decorator_list returns out,
     z3_ret (self (encode (FunctionDef name fargs body decorator_list returns) out).2)
     = Some (BitVec "__ret" 64)).
Proof.
  split; [|split; [|split; [|split]]].
  - intros value w rhs. subst rhs. cbn [NodeVisitor_visit].
    unfold visit_Return, generic_visit, visit.
    change (iter_child_nodes (Return (Some value))) with [value].
    cbn [for_each]. unfold bind, print, ret.
    by destruct (NodeVisitor_visit value _) as [[x|e] w1].
  - done.
  - intros value w. apply (NodeVisitor_visit_same_solver (Return value) w).
  - intros code out. rewrite encode_world.
    by rewrite (NodeVisitor_visit_same_solver code {| self := __init__; stdout := out |}).
  - intros name fargs body decorator_list returns out.
    apply (encode_FunctionDef_decl name fargs body decorator_list returns out).
Qed.

(** C4 fails as written: [CODE2] ends in [return x + 2], is encoded without
    an exception, and leaves the solver with no constraint at all. *)
Lemma CODE2_no_constraint :
  let r := encode CODE2 [] in
  r.1 = Returns PyNone /\
  z3_ret (self r.2) = Some (BitVec "__ret" 64) /\
  assertions (solver (self r.2)) = [] /\
  ~ exists c, c ∈ assertions (solver (self r.2)).
Proof.
  split; [reflexivity|]. split; [reflexivity|]. split; [reflexivity|].
  intros [c Hc]. vm_compute in Hc. by apply elem_of_nil in Hc.
Qed.

(** ** One encoding after another *)

Lemma encode_stdout_frame (code : ast) (out : list string) :
  encode code out
  = ((encode code []).1,
     {| self := self (encode code []).2; stdout := out ++ stdout (encode code []).2 |}).
Proof.
  assert (stdout_frame (visit NodeVisitor_visit code)) as Hframe.
  { apply stdout_frame_bind; [apply NodeVisitor_visit_stdout_frame|].
    intros _. apply stdout_frame_ret. }
  apply (Hframe __init__ out).
Qed.

(** A visitor that has encoded a function refuses a second one. *)
Lemma visit_FunctionDef_once name fargs body decorator_list returns
    name' fargs' body' decorator_list' returns' out :
  let w := (encode (FunctionDef name fargs body decorator_list returns) out).2 in
  NodeVisitor_visit (FunctionDef name' fargs' body' decorator_list' returns') w
  = (Raises (ValueError Only_one_function_declaration_is_allowed), w).
Proof.
  intros w.
  destruct (encode_FunctionDef_decl name fargs body decorator_list returns out)
    as (Hfundecl & _).
  cbn [NodeVisitor_visit]. unfold visit_FunctionDef, bind, get_self. cbn.
  fold w in Hfundecl. by rewrite Hfundecl.
Qed.

(** Encoding [CODE2] has an effect besides building the visitor's fields,
    the three lines it prints. *)
Lemma CODE2_prints :
  stdout (encode CODE2 []).2 = ["return"; "binop: Add"; "name: x"] /\
  stdout (encode CODE2 []).2 <> [].
Proof. split; [reflexivity|]. vm_compute. discriminate. Qed.

(** * Further properties of the code *)

(** ** What the resolver accepts *)

(** X1. [pytype_to_z3type] returns for exactly four annotations, the names
    [int], [str], [bool] and [None] in any context, each with the
    constructor of that name. *)
Theorem pytype_to_z3type_Returns_iff (pytype : ast) (t : Z3PyType.t) :
  pytype_to_z3type pytype = Returns t <->
  exists ctx,
    (pytype = Name "int" ctx /\ t = Z3PyType.int) \/
    (pytype = Name "str" ctx /\ t = Z3PyType.str) \/
    (pytype = Name "bool" ctx /\ t = Z3PyType.bool) \/
    (pytype = Name "None" ctx /\ t = Z3PyType.none).
Proof.
  split.
  - destruct pytype as [id ctx|value slice ctx| | | | |]; try discriminate.
    + simpl. intros Hres. exists ctx.
      destruct (String.eqb id "int") eqn:Hint.
      { apply String.eqb_eq in Hint as ->. injection Hres as <-. by left. }
      destruct (String.eqb id "str") eqn:Hstr.
      { apply String.eqb_eq in Hstr as ->. injection Hres as <-. right. by left. }
      destruct (String.eqb id "bool") eqn:Hbool.
      { apply String.eqb_eq in Hbool as ->. injection Hres as <-. right. right. by left. }
      destruct (String.eqb id "list"); [discriminate|].
      destruct (String.eqb id "None") eqn:Hnone; [|discriminate].
      apply String.eqb_eq in Hnone as ->. injection Hres as <-. by repeat right.
    + intros Hres.
      destruct (pytype_to_z3type_Subscript value slice ctx) as [m Hm].
      rewrite Hm in Hres. discriminate.
  - intros (ctx & [[-> ->]|[[-> ->]|[[-> ->]|[-> ->]]]]); reflexivity.
Qed.

(** ** What every visit keeps *)

Global Instance keeps_bound_PreOrder : PreOrder keeps_bound.
Proof.
  split.
  - by intros w key.
  - intros w1 w2 w3 H12 H23 key Hkey. by apply H23, H12.
Qed.

Global Instance keeps_bindings_own_PreOrder : PreOrder keeps_bindings_own.
Proof.
  split.
  - intros w Hown. exact Hown.
  - intros w1 w2 w3 H12 H23 Hown. by apply H23, H12.
Qed.

Lemma keeps_bound_set_env key x w :
  keeps_bound w {| self := set_env key x (self w); stdout := stdout w |}.
Proof.
  intros k Hk. cbn. destruct (decide (key = k)) as [->|Hne].
  - rewrite lookup_insert_eq. by eexists.
  - by rewrite lookup_insert_ne.
Qed.

Lemma NodeVisitor_visit_keeps_bound (node : ast) :
  preserves keeps_bound (NodeVisitor_visit node).
Proof.
  apply (good_NodeVisitor_visit (fun A => @preserves keeps_bound A)).
  - apply preserves_ret; apply _.
  - apply preserves_raise; apply _.
  - apply preserves_bind; apply _.
  - by intros line w key.
  - apply preserves_get_self; apply _.
  - intros key x w. apply keeps_bound_set_env.
  - intros super_visit name fargs body decorator_list returns Hbody.
    unfold visit_FunctionDef.
    apply preserves_bind; [apply _|apply preserves_get_self; apply _|].
    intros v. destruct (fundecl v); [apply preserves_raise; apply _|].
    repeat first
      [ apply preserves_ret; apply _
      | apply preserves_get_self; apply _
      | apply preserves_modify_self; intros ?; first [apply keeps_bound_set_env|by intros ?]
      | apply preserves_bind; [apply _| |intros ?]
      | apply preserves_for_each; [apply _|apply Forall_forall; intros ? ?] ].
    rewrite Forall_forall in Hbody. by apply Hbody.
Qed.

Lemma keeps_bindings_own_set_env_None key w :
  keeps_bindings_own w {| self := set_env key PyNone (self w); stdout := stdout w |}.
Proof.
  intros Hown k x. cbn. destruct (decide (key = k)) as [->|Hne].
  - rewrite lookup_insert_eq. intros [= <-]. by left.
  - rewrite lookup_insert_ne by done. apply Hown.
Qed.

Lemma keeps_bindings_own_set_env_arg (a : ast_arg ast) w :
  keeps_bindings_own w
    {| self := set_env (arg a) (PyZ3 (BitVec ("__arg_" +:+ arg a) 64)) (self w);
       stdout := stdout w |}.
Proof.
  intros Hown k x. cbn. destruct (decide (arg a = k)) as [<-|Hne].
  - rewrite lookup_insert_eq. intros [= <-]. by right.
  - rewrite lookup_insert_ne by done. apply Hown.
Qed.

(** An assignment only ever stores [None], so a relation kept by every
    [self.env[key] = None] is kept by every visit. *)
Section Preserves_None.
Variable R : world -> world -> Prop.
Context `{!PreOrder R}.
Hypothesis R_print : forall line w, R w (print line w).2.
Hypothesis R_set_env_None : forall key w,
  R w {| self := set_env key PyNone (self w); stdout := stdout w |}.
Hypothesis R_visit_FunctionDef :
  forall super_visit name fargs body decorator_list returns,
    Forall (fun stmt => preserves R (super_visit stmt)) body ->
    preserves R (visit_FunctionDef super_visit name fargs body decorator_list returns).

Lemma preserves_visit_None super_visit node :
  preserves R (super_visit node) -> preserves R (visit super_visit node).
Proof.
  intros H. apply preserves_bind; [apply _|done|]. intros _.
  apply preserves_ret; apply _.
Qed.

Lemma preserves_generic_visit_None super_visit node :
  Forall (fun c => preserves R (super_visit c)) (iter_child_nodes node) ->
  preserves R (generic_visit super_visit node).
Proof.
  intros H. apply preserves_bind; [apply _| |intros _; apply preserves_ret; apply _].
  apply preserves_for_each; [apply _|]. eapply Forall_impl; [exact H|].
  intros c Hc. apply preserves_bind; [apply _|by apply preserves_visit_None|].
  intros _. apply preserves_ret; apply _.
Qed.

Lemma preserves_visit_Assign_None super_visit targets value :
  preserves R (super_visit value) ->
  preserves R (visit_Assign super_visit targets value).
Proof.
  intros H. apply preserves_bind; [apply _| |intros _; apply preserves_ret; apply _].
  apply preserves_for_each; [apply _|]. apply Forall_forall. intros target _.
  destruct target as [id ctx| | | | | |]; try (apply preserves_raise; apply _).
  apply preserves_bind; [apply _|exact (R_print _)|]. intros _ w.
  specialize (H w). cbv [bind visit ret modify_self get_self put_self].
  destruct (super_visit value w) as [[x|e] w1]; [|exact H].
  etrans; [exact H|]. apply R_set_env_None.
Qed.

Lemma preserves_NodeVisitor_visit_None (node : ast) :
  preserves R (NodeVisitor_visit node).
Proof.
  induction node using ast_visit_ind; cbn [NodeVisitor_visit].
  - unfold visit_Name. apply preserves_bind; [apply _|exact (R_print _)|].
    intros _. apply preserves_bind; [apply _|apply preserves_get_self; apply _|].
    intros v. destruct (env v !! id);
      [apply preserves_ret; apply _|apply preserves_raise; apply _].
  - apply preserves_generic_visit_None. simpl. by repeat constructor.
  - apply preserves_bind; [apply _|exact (R_print _)|]. intros _.
    apply preserves_generic_visit_None. simpl. by repeat constructor.
  - by apply preserves_visit_Assign_None.
  - apply preserves_bind; [apply _|exact (R_print _)|]. intros _.
    apply preserves_generic_visit_None. simpl. constructor.
  - apply preserves_bind; [apply _|exact (R_print _)|]. intros _.
    apply preserves_generic_visit_None. simpl. by repeat constructor.
  - by apply R_visit_FunctionDef.
  - by apply preserves_generic_visit_None.
Qed.
End Preserves_None.

Lemma NodeVisitor_visit_keeps_bindings_own (node : ast) :
  preserves keeps_bindings_own (NodeVisitor_visit node).
Proof.
  apply (preserves_NodeVisitor_visit_None keeps_bindings_own).
  - intros line w Hown. exact Hown.
  - intros key w. apply keeps_bindings_own_set_env_None.
  - intros super_visit name fargs body decorator_list returns Hbody.
    unfold visit_FunctionDef.
    apply preserves_bind; [apply _|apply preserves_get_self; apply _|].
    intros v. destruct (fundecl v); [apply preserves_raise; apply _|].
    repeat first
      [ apply preserves_ret; apply _
      | apply preserves_get_self; apply _
      | apply preserves_modify_self; intros ?;
        first [apply keeps_bindings_own_set_env_arg|intros Hown; exact Hown]
      | apply preserves_bind; [apply _| |intros ?]
      | apply preserves_for_each; [apply _|apply Forall_forall; intros ? ?] ].
    rewrite Forall_forall in Hbody. by apply Hbody.
Qed.

(** X2. A name that is bound is bound after every visit, whether the visit
    returned or raised: a reference that resolved once resolves from then
    on. *)
Theorem bound_names_stay_bound (node : ast) (w : world) (key : string) :
  is_Some (env (self w) !! key) ->
  is_Some (env (self (NodeVisitor_visit node w).2) !! key).
Proof. apply (NodeVisitor_visit_keeps_bound node w). Qed.

Lemma bound_names_stay_bound_witness :
  let w := (encode CODE2 []).2 in
  is_Some (env (self w) !! "x") /\
  is_Some (env (self (NodeVisitor_visit assign_y w).2) !! "x").
Proof.
  intros w.
  assert (is_Some (env (self w) !! "x")) as Hx by (by eexists).
  split; [exact Hx|]. exact (bound_names_stay_bound assign_y w "x" Hx).
Defined.

(** X3. Whatever tree is encoded and however the encoding ends, a name is bound
    to [None] or to the constant [__arg_<that name>]: never to the constant
    of another parameter, and never to a value computed from the right-hand
    side of an assignment. *)
Theorem encode_bindings_own (code : ast) (out : list string) (key : string)
    (x : pyvalue) :
  env (self (encode code out).2) !! key = Some x ->
  x = PyNone \/ x = PyZ3 (BitVec ("__arg_" +:+ key) 64).
Proof.
  rewrite encode_world.
  apply (NodeVisitor_visit_keeps_bindings_own code {| self := __init__; stdout := out |}).
  intros k y Hk. cbn in Hk. by rewrite lookup_empty in Hk.
Qed.

Lemma encode_bindings_own_witness :
  env (self (encode CODE2 []).2) !! "x" = Some (PyZ3 (BitVec "__arg_x" 64)) /\
  (PyZ3 (BitVec "__arg_x" 64) = PyNone \/
   PyZ3 (BitVec "__arg_x" 64) = PyZ3 (BitVec ("__arg_" +:+ "x") 64)).
Proof.
  assert (env (self (encode CODE2 []).2) !! "x" = Some (PyZ3 (BitVec "__arg_x" 64)))
    as Hx by reflexivity.
  split; [exact Hx|]. exact (encode_bindings_own CODE2 [] "x" _ Hx).
Defined.

(** X4. Once a visitor holds a function definition, no visit of any tree
    changes [fundecl], [z3_args], [z3_ret] or [z3_func]. *)
Theorem declaration_frozen (node : ast) (w : world) :
  is_Some (fundecl (self w)) ->
  let w' := (NodeVisitor_visit node w).2 in
  fundecl (self w') = fundecl (self w) /\
  z3_args (self w') = z3_args (self w) /\
  z3_ret (self w') = z3_ret (self w) /\
  z3_func (self w') = z3_func (self w).
Proof. apply (NodeVisitor_visit_same_decl node w). Qed.

Lemma declaration_frozen_witness :
  let w := (encode CODE2 []).2 in
  is_Some (fundecl (self w)) /\
  z3_args (self (NodeVisitor_visit CODE1 w).2) = z3_args (self w).
Proof.
  intros w.
  assert (is_Some (fundecl (self w))) as Hfd by (by eexists).
  split; [exact Hfd|]. exact (proj1 (proj2 (declaration_frozen CODE1 w Hfd))).
Defined.

(** X5. After a new visitor has visited a function definition, and whether the
    body was encoded or raised, [fundecl] is that definition, there is one
    argument constant per parameter of [args.args], and the function symbol
    has the definition's name and one 64-bit bit-vector sort per parameter
    plus one for the result. *)
Theorem encode_FunctionDef_signature name fargs body decorator_list returns out :
  let node := FunctionDef name fargs body decorator_list returns in
  let v := self (encode node out).2 in
  fundecl v = Some node /\
  length (z3_args v) = length (args fargs) /\
  z3_func v
  = Some (Function name (replicate (length (args fargs) + 1) (BitVecSort 64))) /\
  z3_ret v = Some (BitVec "__ret" 64).
Proof.
  intros node v.
  destruct (encode_FunctionDef_decl name fargs body decorator_list returns out)
    as (Hfd & Hargs & Hret & Hfunc).
  subst v node. rewrite Hfd, Hargs, Hret, Hfunc.
  by rewrite length_map.
Qed.

(** ** Loops over child nodes *)

(** The two loop bodies of the traversal, [self.visit(item)] in
    [generic_visit] and [super().visit(stmt)] in [visit_FunctionDef], end as
    the dispatch on the node ends. *)
Lemma visit_item_follows (node : ast) (w : world) :
  (visit NodeVisitor_visit node ;; ret tt) w
  = (match (NodeVisitor_visit node w).1 with
     | Returns _ => Returns tt
     | Raises e => Raises e
     end, (NodeVisitor_visit node w).2).
Proof.
  cbv [bind visit ret]. by destruct (NodeVisitor_visit node w) as [[x|e] w1].
Qed.

Lemma visit_stmt_follows (node : ast) (w : world) :
  (NodeVisitor_visit node ;; ret tt) w
  = (match (NodeVisitor_visit node w).1 with
     | Returns _ => Returns tt
     | Raises e => Raises e
     end, (NodeVisitor_visit node w).2).
Proof.
  cbv [bind ret]. by destruct (NodeVisitor_visit node w) as [[x|e] w1].
Qed.

Lemma for_each_cons_item (x : ast) (l : list ast) (w : world) :
  for_each (fun item => visit NodeVisitor_visit item ;; ret tt) (x :: l) w
  = match (NodeVisitor_visit x w).1 with
    | Returns _ =>
        for_each (fun item => visit NodeVisitor_visit item ;; ret tt) l
                 (NodeVisitor_visit x w).2
    | Raises e => (Raises e, (NodeVisitor_visit x w).2)
    end.
Proof.
  cbn [for_each]. unfold bind at 1. cbn beta. rewrite visit_item_follows.
  by destruct (NodeVisitor_visit x w).1.
Qed.

Lemma for_each_cons_stmt (x : ast) (l : list ast) (w : world) :
  for_each (fun stmt => NodeVisitor_visit stmt ;; ret tt) (x :: l) w
  = match (NodeVisitor_visit x w).1 with
    | Returns _ =>
        for_each (fun stmt => NodeVisitor_visit stmt ;; ret tt) l
                 (NodeVisitor_visit x w).2
    | Raises e => (Raises e, (NodeVisitor_visit x w).2)
    end.
Proof.
  cbn [for_each]. unfold bind at 1. cbn beta. rewrite visit_stmt_follows.
  by destruct (NodeVisitor_visit x w).1.
Qed.

Lemma generic_visit_follows (node : ast) (w : world) :
  let loop := for_each (fun item => visit NodeVisitor_visit item ;; ret tt)
                       (iter_child_nodes node) w in
  generic_visit NodeVisitor_visit node w
  = (match loop.1 with Returns _ => Returns PyNone | Raises e => Raises e end,
     loop.2).
Proof.
  unfold generic_visit, bind at 1.
  by destruct (for_each _ _ w) as [[u|e] w1].
Qed.

(** ** Nested function definitions *)

Section Nested.
Variable step : ast -> M unit.
Hypothesis step_follows : forall node w,
  step node w
  = (match (NodeVisitor_visit node w).1 with
     | Returns _ => Returns tt
     | Raises e => Raises e
     end, (NodeVisitor_visit node w).2).

Lemma for_each_meets_FunctionDef (l : list ast) :
  Forall (fun n => meets_FunctionDef n = true ->
                   forall w, is_Some (fundecl (self w)) ->
                   exists e w', NodeVisitor_visit n w = (Raises e, w')) l ->
  existsb meets_FunctionDef l = true ->
  forall w, is_Some (fundecl (self w)) ->
  exists e w', for_each step l w = (Raises e, w').
Proof.
  induction 1 as [|x l Hx _ IH]; [done|]. intros Hmeets w Hfd.
  cbn [for_each]. unfold bind. rewrite step_follows.
  destruct (meets_FunctionDef x) eqn:Hmx.
  - destruct (Hx eq_refl w Hfd) as (e & w' & ->). by eexists _, _.
  - pose proof (NodeVisitor_visit_same_decl x w Hfd) as (Hfd' & _).
    destruct (NodeVisitor_visit x w) as [[r|e] w1]; cbn in *; [|by eexists _, _].
    apply IH; [by rewrite Hmx in Hmeets|]. by rewrite Hfd'.
Qed.
End Nested.

Lemma meets_FunctionDef_raises (node : ast) :
  meets_FunctionDef node = true ->
  forall w, is_Some (fundecl (self w)) ->
  exists e w', NodeVisitor_visit node w = (Raises e, w').
Proof.
  induction node as [id ctx|value slice ctx IHv IHs IHc|left_ op right_ IHl IHo IHr
                     |targets value IHvalue| |value IHvalue
                     |name fargs body decorator_list returns _|cls children IHch]
    using ast_visit_ind; intros Hmeets w Hfd.
  - done.
  - cbn [NodeVisitor_visit]. unfold generic_visit, bind at 1. cbn [iter_child_nodes].
    destruct (for_each_meets_FunctionDef
                (fun item => visit NodeVisitor_visit item ;; ret tt) visit_item_follows [value; slice; ctx])
      with (w := w) as (e & w' & ->); [by repeat constructor| |done|by eexists _, _].
    cbn in *. by rewrite orb_false_r, orb_assoc.
  - cbn [NodeVisitor_visit]. unfold visit_BinOp, bind at 1, print. cbn [fst snd].
    unfold generic_visit, bind at 1. cbn [iter_child_nodes].
    destruct (for_each_meets_FunctionDef
                (fun item => visit NodeVisitor_visit item ;; ret tt) visit_item_follows [left_; op; right_])
      with (w := {| self := self w; stdout := stdout w ++ ["binop: " +:+ class_name op] |})
      as (e & w' & ->); [by repeat constructor| |done|by eexists _, _].
    cbn in *. by rewrite orb_false_r, orb_assoc.
  - destruct targets as [|[id ctx| | | | | |] rest]; try discriminate Hmeets.
    cbn in Hmeets. cbn [NodeVisitor_visit].
    destruct (IHvalue Hmeets {| self := self w; stdout := stdout w ++ ["assign: " +:+ id] |} Hfd)
      as (e & w' & Hvalue).
    exists e, w'. cbv [visit_Assign for_each visit_Assign_target bind print visit].
    cbn [self stdout]. by rewrite Hvalue.
  - done.
  - cbn in Hmeets. cbn [NodeVisitor_visit].
    destruct (IHvalue Hmeets {| self := self w; stdout := stdout w ++ ["return"] |} Hfd)
      as (e & w' & Hvalue).
    exists e, w'. unfold visit_Return, generic_visit.
    change (iter_child_nodes (Return (Some value))) with [value].
    cbv [for_each bind print visit ret]. cbn [self stdout]. by rewrite Hvalue.
  - exists (ValueError Only_one_function_declaration_is_allowed), w.
    cbn [NodeVisitor_visit]. unfold visit_FunctionDef, bind, get_self. cbn.
    by destruct Hfd as [fd ->].
  - cbn [NodeVisitor_visit]. unfold generic_visit, bind at 1. cbn [iter_child_nodes].
    destruct (for_each_meets_FunctionDef
                (fun item => visit NodeVisitor_visit item ;; ret tt) visit_item_follows children)
      with (w := w) as (e & w' & ->); [done|done|done|by eexists _, _].
Qed.

(** X6. A function definition whose body gets to another function definition is
    never encoded: the encoding raises. The inner definition may be a
    statement of the body or lie inside one, under nodes of classes the
    visitor has no method for, in a returned expression or on the right of
    an assignment to a name. *)
Theorem nested_FunctionDef_raises name fargs body decorator_list returns out :
  existsb meets_FunctionDef body = true ->
  exists e, (encode (FunctionDef name fargs body decorator_list returns) out).1 = Raises e.
Proof.
  intros Hmeets. unfold encode, visit, bind at 1. cbn [NodeVisitor_visit].
  rewrite visit_FunctionDef_entry by done. unfold bind at 1.
  destruct (for_each_meets_FunctionDef
              (fun stmt => NodeVisitor_visit stmt ;; ret tt) visit_stmt_follows body)
    with (w := function_entry name fargs body decorator_list returns
                 {| self := __init__; stdout := out |})
    as (e & w' & ->); [|done|by eexists|by eexists].
  apply Forall_forall. intros stmt _. apply meets_FunctionDef_raises.
Qed.

Lemma nested_FunctionDef_raises_witness :
  existsb meets_FunctionDef [nested_method] = true /\
  exists e, (encode outer_with_nested []).1 = Raises e.
Proof.
  assert (existsb meets_FunctionDef [nested_method] = true) as Hmeets by reflexivity.
  split; [exact Hmeets|].
  exact (nested_FunctionDef_raises "f"
           (mk_arguments [] [mk_arg "x" None] None [] [] None [])
           [nested_method] [] None [] Hmeets).
Defined.

(** ** [ast.walk] goes breadth first *)

(** Popping a whole prefix of the queue yields it and leaves its children
    at the back. *)
Lemma walk_loop_batch (q : list ast) :
  forall acc fuel,
    walk_loop (length q + fuel) (q ++ acc)
    = q ++ walk_loop fuel (acc ++ child_generation q).
Proof.
  induction q as [|node q IH]; intros acc fuel.
  - simpl. by rewrite app_nil_r.
  - cbn [length Nat.add app walk_loop]. f_equal.
    rewrite <- (assoc_L (++)), IH. unfold child_generation. cbn [flat_map].
    by rewrite (assoc_L (++)).
Qed.

Lemma size_child_generation (q : list ast) :
  sum_list_with size (child_generation q) + length q = sum_list_with size q.
Proof.
  induction q as [|node q IH]; [done|].
  unfold child_generation in *. cbn [flat_map sum_list_with length].
  rewrite sum_list_with_app, (size_iter_child_nodes node). lia.
Qed.

Lemma length_le_size (q : list ast) : length q <= sum_list_with size q.
Proof. pose proof (size_child_generation q). lia. Qed.

Lemma generations_nil (n : nat) : generations n [] = [].
Proof. induction n as [|n IH]; [done|]. simpl. exact IH. Qed.

Lemma walk_loop_generations (fuel : nat) :
  forall q, sum_list_with size q <= fuel -> walk_loop fuel q = generations fuel q.
Proof.
  induction fuel as [|fuel IH]; intros q Hfuel.
  - by destruct q.
  - destruct q as [|node q]; [by rewrite generations_nil|].
    set (q' := node :: q) in *.
    pose proof (size_child_generation q') as Hsize.
    pose proof (length_le_size q') as Hlen.
    assert (0 < length q') as Hpos by (simpl; lia).
    pose proof (walk_loop_batch q' [] (S fuel - length q')) as Hbatch.
    rewrite app_nil_r in Hbatch.
    replace (length q' + (S fuel - length q')) with (S fuel) in Hbatch by lia.
    rewrite Hbatch. cbn [generations app]. f_equal.
    rewrite (walk_loop_fuel _ fuel) by lia. apply IH. lia.
Qed.

Lemma generations_concat (n : nat) :
  forall q, generations n q = concat (map (fun d => generation_from d q) (seq 0 n)).
Proof.
  induction n as [|n IH]; intros q; [done|].
  cbn [generations seq map concat generation_from]. f_equal.
  rewrite IH, <- seq_shift, map_map. reflexivity.
Qed.

Lemma generation_from_empty (d : nat) :
  forall q, sum_list_with size q <= d -> generation_from d q = [].
Proof.
  induction d as [|d IH]; intros q Hq.
  - destruct q as [|node q]; [done|]. simpl in Hq. pose proof (size_pos node). lia.
  - cbn [generation_from]. apply IH.
    pose proof (size_child_generation q). pose proof (length_le_size q).
    assert (q = [] \/ 0 < length q) as [->|Hpos]
      by (destruct q; [by left|right; simpl; lia]).
    + cbn. lia.
    + lia.
Qed.

Lemma walk_generations (code : ast) :
  walk code = concat (map (fun d => generation d code) (seq 0 (size code))).
Proof.
  unfold walk, generation.
  rewrite walk_loop_generations by (simpl; lia). apply generations_concat.
Qed.

(** X7. [ast.walk] yields the tree generation by generation: the root, then its
    children, then their children, each generation from left to right; and
    no generation is left out, since those from [size code] on are empty. *)
Theorem walk_breadth_first (code : ast) :
  walk code = concat (map (fun d => generation d code) (seq 0 (size code))) /\
  forall d, size code <= d -> generation d code = [].
Proof.
  split; [apply walk_generations|].
  intros d Hd. apply generation_from_empty. simpl. lia.
Qed.

Lemma first_FunctionDef_app (l1 l2 : list ast) :
  first_FunctionDef (l1 ++ l2)
  = match first_FunctionDef l1 with
    | Some node => Some node
    | None => first_FunctionDef l2
    end.
Proof.
  induction l1 as [|n l1 IH]; [done|]. simpl.
  by destruct (isinstance_FunctionDef n).
Qed.

Lemma first_FunctionDef_concat (g : nat -> list ast) (n : nat) :
  forall a node,
    first_FunctionDef (concat (map g (seq a n))) = Some node ->
    exists d,
      first_FunctionDef (g d) = Some node /\
      forall d', a <= d' < d -> first_FunctionDef (g d') = None.
Proof.
  induction n as [|n IH]; intros a node; [done|].
  cbn [seq map concat]. rewrite first_FunctionDef_app.
  destruct (first_FunctionDef (g a)) as [m|] eqn:Hga.
  - intros [= ->]. exists a. split; [done|]. intros d' Hd'. lia.
  - intros Hrest. destruct (IH (S a) node Hrest) as (d & Hd & Hbefore).
    exists d. split; [done|]. intros d' Hd'.
    destruct (decide (d' = a)) as [->|Hne]; [done|]. apply Hbefore. lia.
Qed.

(** X8. The function definition [get_first_function_decl] returns is a
    shallowest one: it is the leftmost function definition of its
    generation, and no generation nearer the root has one. A definition
    nested in a class is passed over for a later one at the top level. *)
Theorem get_first_function_decl_shallowest (code node : ast) :
  get_first_function_decl code = Some node ->
  exists d,
    first_FunctionDef (generation d code) = Some node /\
    forall d' n, d' < d -> n ∈ generation d' code -> isinstance_FunctionDef n = false.
Proof.
  unfold get_first_function_decl.
  rewrite walk_generations. intros Hfirst.
  destruct (first_FunctionDef_concat _ _ _ _ Hfirst) as (d & Hd & Hbefore).
  exists d. split; [done|]. intros d' n Hd' Hn.
  apply (first_FunctionDef_None (generation d' code)); [|done].
  apply Hbefore. lia.
Qed.

Lemma get_first_function_decl_shallowest_witness :
  get_first_function_decl class_then_function = Some top_level_g /\
  exists d,
    first_FunctionDef (generation d class_then_function) = Some top_level_g /\
    forall d' n, d' < d -> n ∈ generation d' class_then_function ->
                 isinstance_FunctionDef n = false.
Proof.
  assert (get_first_function_decl class_then_function = Some top_level_g) as Hfirst
    by reflexivity.
  split; [exact Hfirst|].
  exact (get_first_function_decl_shallowest class_then_function top_level_g Hfirst).
Defined.

(** X9. A tree that is a function definition is its own first function
    definition, so [get_first_function_decl] applied to its own result
    returns that result again. *)
Theorem get_first_function_decl_idempotent (code node : ast) :
  get_first_function_decl code = Some node ->
  get_first_function_decl node = Some node.
Proof.
  intros Hfirst. apply first_FunctionDef_Some in Hfirst as (Hfd & _).
  unfold get_first_function_decl, walk. rewrite (size_iter_child_nodes node).
  cbn [walk_loop first_FunctionDef]. by rewrite Hfd.
Qed.

Lemma get_first_function_decl_idempotent_witness :
  get_first_function_decl class_then_function = Some top_level_g /\
  get_first_function_decl top_level_g = Some top_level_g.
Proof.
  assert (get_first_function_decl class_then_function = Some top_level_g) as Hfirst
    by reflexivity.
  split; [exact Hfirst|].
  exact (get_first_function_decl_idempotent class_then_function top_level_g Hfirst).
Defined.

(** ** Expressions *)

Lemma first_unbound_app (e : gmap string pyvalue) (l1 l2 : list string) :
  first_unbound e (l1 ++ l2)
  = match first_unbound e l1 with
    | Some id => Some id
    | None => first_unbound e l2
    end.
Proof.
  induction l1 as [|id l1 IH]; [done|]. simpl. by destruct (e !! id).
Qed.

Lemma first_unbound_insert (e : gmap string pyvalue) (key : string) (x : pyvalue)
    (l : list string) :
  first_unbound e l = None -> first_unbound (<[key := x]> e) l = None.
Proof.
  induction l as [|id l IH]; [done|]. simpl.
  destruct (e !! id) eqn:Hid; [|done]. intros Hl.
  destruct (decide (key = id)) as [->|Hne].
  - rewrite lookup_insert_eq. by apply IH.
  - rewrite lookup_insert_ne, Hid by done. by apply IH.
Qed.

Lemma for_each_expressions (l : list ast) :
  Forall (fun n => is_expression n = true -> visits_as_expression n) l ->
  forallb is_expression l = true ->
  forall w,
    let r := for_each (fun item => visit NodeVisitor_visit item ;; ret tt) l w in
    self r.2 = self w /\
    r.1 = match first_unbound (env (self w)) (flat_map loaded_names l) with
          | Some id => Raises (ValueError (Undefined_variable id))
          | None => Returns tt
          end.
Proof.
  induction 1 as [|x l Hx _ IH]; [done|]. intros Hall w.
  cbn [forallb] in Hall. apply andb_prop in Hall as [Hex Hel].
  cbn zeta. rewrite for_each_cons_item. cbn [flat_map].
  rewrite first_unbound_app. destruct (Hx Hex w) as [Hself Hres].
  destruct (first_unbound (env (self w)) (loaded_names x)) as [id|].
  - rewrite Hres. by split.
  - destruct Hres as [y ->]. set (w1 := (NodeVisitor_visit x w).2) in *.
    destruct (IH Hel w1) as [Hself' Hres']. cbn zeta in *.
    rewrite Hself', Hres', Hself. by split.
Qed.

Lemma generic_visit_expressions (node : ast) (w : world) :
  Forall (fun n => is_expression n = true -> visits_as_expression n)
         (iter_child_nodes node) ->
  forallb is_expression (iter_child_nodes node) = true ->
  let r := generic_visit NodeVisitor_visit node w in
  self r.2 = self w /\
  match first_unbound (env (self w)) (flat_map loaded_names (iter_child_nodes node)) with
  | Some id => r.1 = Raises (ValueError (Undefined_variable id))
  | None => exists x, r.1 = Returns x
  end.
Proof.
  intros Hch Hall. cbn zeta. rewrite generic_visit_follows. cbn [fst snd].
  destruct (for_each_expressions _ Hch Hall w) as [Hself Hres]. cbn zeta in *.
  rewrite Hself, Hres.
  destruct (first_unbound _ _); [by split|]. split; [done|by eexists].
Qed.

Lemma is_expression_visits (node : ast) :
  is_expression node = true -> visits_as_expression node.
Proof.
  induction node as [id ctx|value slice ctx IHv IHs IHc|left_ op right_ IHl IHo IHr
                     |targets value IHvalue| |value IHvalue
                     |name fargs body decorator_list returns _|cls children IHch]
    using ast_visit_ind; intros Hexpr w; try discriminate Hexpr.
  - cbn [NodeVisitor_visit loaded_names first_unbound].
    cbv [visit_Name bind print get_self ret raise]. cbn [self stdout].
    destruct (env (self w) !! id); cbn; [|done]. split; [done|by eexists].
  - cbn [is_expression] in Hexpr.
    apply andb_prop in Hexpr as [[Hv Hs]%andb_prop Hc].
    cbn [NodeVisitor_visit loaded_names].
    pose proof (generic_visit_expressions (Subscript value slice ctx) w) as Hgen.
    cbn [iter_child_nodes flat_map forallb] in Hgen. rewrite app_nil_r in Hgen.
    apply Hgen; [repeat (constructor 2; [assumption|]); constructor 1|]. by rewrite Hv, Hs, Hc.
  - cbn [is_expression] in Hexpr.
    apply andb_prop in Hexpr as [[Hl Ho]%andb_prop Hr].
    cbn [NodeVisitor_visit loaded_names]. unfold visit_BinOp, bind at 1, print.
    set (w0 := {| self := self w; stdout := _ |}).
    pose proof (generic_visit_expressions (BinOp left_ op right_) w0) as Hgen.
    cbn [iter_child_nodes flat_map forallb] in Hgen. rewrite app_nil_r in Hgen.
    apply Hgen; [repeat (constructor 2; [assumption|]); constructor 1|]. by rewrite Hl, Ho, Hr.
  - cbn [NodeVisitor_visit loaded_names].
    by apply (generic_visit_expressions (Node cls children) w).
Qed.

(** ** Assignments to several names *)

Lemma for_each_cons_target (id : string) (ctx value : ast) (targets : list ast)
    (w : world) :
  let w0 := {| self := self w; stdout := stdout w ++ ["assign: " +:+ id] |} in
  for_each (visit_Assign_target NodeVisitor_visit value) (Name id ctx :: targets) w
  = match (NodeVisitor_visit value w0).1 with
    | Returns _ =>
        for_each (visit_Assign_target NodeVisitor_visit value) targets
          {| self := set_env id PyNone (self (NodeVisitor_visit value w0).2);
             stdout := stdout (NodeVisitor_visit value w0).2 |}
    | Raises e => (Raises e, (NodeVisitor_visit value w0).2)
    end.
Proof.
  cbn [for_each]. unfold bind at 1.
  cbv [visit_Assign_target bind print visit ret modify_self get_self put_self].
  cbn [self stdout]. by destruct (NodeVisitor_visit value _) as [[x|e] w1].
Qed.

Lemma for_each_name_targets (value : ast) (targets : list ast) :
  is_expression value = true ->
  Forall (fun t => isinstance_Name t = true) targets ->
  forall w,
    match first_unbound (env (self w)) (loaded_names value) with
    | Some id =>
        targets <> [] ->
        (for_each (visit_Assign_target NodeVisitor_visit value) targets w).1
        = Raises (ValueError (Undefined_variable id)) /\
        self (for_each (visit_Assign_target NodeVisitor_visit value) targets w).2
        = self w
    | None =>
        (for_each (visit_Assign_target NodeVisitor_visit value) targets w).1
        = Returns tt /\
        env (self (for_each (visit_Assign_target NodeVisitor_visit value) targets w).2)
        = bind_targets (env (self w)) targets
    end.
Proof.
  intros Hexpr. induction 1 as [|t targets Ht _ IH]; intros w.
  - by destruct (first_unbound _ _).
  - destruct t as [id ctx| | | | | |]; try discriminate Ht.
    rewrite for_each_cons_target. cbn zeta.
    set (w0 := {| self := self w; stdout := _ |}).
    destruct (is_expression_visits value Hexpr w0) as [Hself Hres].
    change (env (self w0)) with (env (self w)) in Hres.
    change (self w0) with (self w) in Hself.
    destruct (first_unbound (env (self w)) (loaded_names value)) as [id0|] eqn:Hfirst.
    + intros _. by rewrite Hres.
    + destruct Hres as [x ->].
      set (w1 := {| self := set_env id PyNone _; stdout := _ |}).
      specialize (IH w1).
      assert (env (self w1) = <[id := PyNone]> (env (self w))) as Henv
        by (cbn; by rewrite Hself).
      rewrite Henv, (first_unbound_insert _ _ _ _ Hfirst) in IH.
      exact IH.
Qed.

(** ** Straight-line bodies *)

Lemma visit_Return_follows (value : ast) (w : world) :
  let w0 := {| self := self w; stdout := stdout w ++ ["return"] |} in
  NodeVisitor_visit (Return (Some value)) w
  = (match (NodeVisitor_visit value w0).1 with
     | Returns _ => Returns PyNone
     | Raises e => Raises e
     end, (NodeVisitor_visit value w0).2).
Proof.
  cbn [NodeVisitor_visit]. unfold visit_Return, generic_visit, visit.
  change (iter_child_nodes (Return (Some value))) with [value].
  cbn [for_each]. unfold bind, print, ret. cbn [self stdout].
  by destruct (NodeVisitor_visit value _) as [[x|e] w1].
Qed.

Lemma check_names_cons (e : gmap string pyvalue) (stmt : ast) (rest : list ast) :
  check_names e (stmt :: rest)
  = match check_names e [stmt] with
    | inl id => inl id
    | inr e' => check_names e' rest
    end.
Proof.
  destruct stmt as [| | |targets value|[value|]| |]; cbn [check_names]; try done;
    by destruct (first_unbound _ _).
Qed.

Lemma simple_statement_visit (stmt : ast) (w : world) :
  simple_statement stmt = true ->
  match check_names (env (self w)) [stmt] with
  | inl id => (NodeVisitor_visit stmt w).1 = Raises (ValueError (Undefined_variable id))
  | inr e =>
      (exists x, (NodeVisitor_visit stmt w).1 = Returns x) /\
      env (self (NodeVisitor_visit stmt w).2) = e
  end.
Proof.
  destruct stmt as [| | |targets value|[value|]| |]; try discriminate.
  - intros Hsimple. destruct targets as [|t targets]; [discriminate|].
    cbn [simple_statement] in Hsimple. apply andb_prop in Hsimple as [Hnames Hexpr].
    assert (Forall (fun t => isinstance_Name t = true) (t :: targets)) as Hall.
    { apply Forall_forall. intros t' Ht'.
      rewrite forallb_forall in Hnames. apply Hnames. by apply list_elem_of_In. }
    pose proof (visit_Assign_names_aux := for_each_name_targets value (t :: targets) Hexpr Hall w).
    cbn [check_names NodeVisitor_visit]. unfold visit_Assign, bind.
    destruct (first_unbound _ _) as [id|].
    + destruct visit_Assign_names_aux as [Hres _]; [done|].
      destruct (for_each _ _ w) as [r w1]. cbn in *. by subst r.
    + destruct visit_Assign_names_aux as [Hres Henv].
      destruct (for_each _ _ w) as [r w1]. cbn in *. subst r.
      split; [by eexists|done].
  - intros Hexpr. cbn [simple_statement] in Hexpr.
    cbn [check_names]. rewrite visit_Return_follows. cbn zeta.
    destruct (is_expression_visits value Hexpr
                {| self := self w; stdout := stdout w ++ ["return"] |})
      as [Hself Hres].
    cbn [self] in Hself, Hres.
    destruct (first_unbound _ _) as [id|].
    + by rewrite Hres.
    + destruct Hres as [x ->]. cbn [fst snd]. split; [by eexists|by rewrite Hself].
  - intros _. cbn. split; [by eexists|done].
Qed.

Lemma for_each_simple_statements (body : list ast) :
  Forall (fun stmt => simple_statement stmt = true) body ->
  forall w,
    match check_names (env (self w)) body with
    | inl id =>
        (for_each (fun stmt => NodeVisitor_visit stmt ;; ret tt) body w).1
        = Raises (ValueError (Undefined_variable id))
    | inr e =>
        (for_each (fun stmt => NodeVisitor_visit stmt ;; ret tt) body w).1 = Returns tt /\
        env (self (for_each (fun stmt => NodeVisitor_visit stmt ;; ret tt) body w).2) = e
    end.
Proof.
  induction 1 as [|stmt body Hstmt _ IH]; intros w; [done|].
  rewrite check_names_cons, for_each_cons_stmt.
  pose proof (simple_statement_visit stmt w Hstmt) as Hvisit.
  destruct (check_names (env (self w)) [stmt]) as [id|e].
  - by rewrite Hvisit.
  - destruct Hvisit as [[x ->] <-]. apply IH.
Qed.

Lemma encode_FunctionDef_follows name fargs body decorator_list returns out :
  let loop :=
    for_each (fun stmt => NodeVisitor_visit stmt ;; ret tt) body
      (function_entry name fargs body decorator_list returns
         {| self := __init__; stdout := out |}) in
  encode (FunctionDef name fargs body decorator_list returns) out
  = (match loop.1 with Returns _ => Returns PyNone | Raises e => Raises e end,
     loop.2).
Proof.
  unfold encode, visit, bind at 1. cbn [NodeVisitor_visit].
  rewrite visit_FunctionDef_entry by done. unfold bind at 1.
  by destruct (for_each _ body _) as [[u|e] w1].
Qed.

(** * Visits within visits *)

(** ** What a visit raises, the visit that started it raises *)

Lemma for_each_app {A} (body : A -> M unit) (l1 l2 : list A) (w : world) :
  for_each body (l1 ++ l2) w
  = match for_each body l1 w with
    | (Returns _, w') => for_each body l2 w'
    | (Raises e, w') => (Raises e, w')
    end.
Proof.
  revert w. induction l1 as [|x l1 IH]; intros w; [done|].
  cbn [app for_each]. unfold bind.
  destruct (body x w) as [[u|e] w1]; [apply IH|done].
Qed.

Lemma NodeVisitor_visit_generic (node : ast) (w : world) :
  visited_generically node = true ->
  NodeVisitor_visit node w = generic_visit NodeVisitor_visit node (prologue node w).
Proof.
  destruct node as [| | | |[value|]| |]; try discriminate; reflexivity.
Qed.

Lemma starts_raises (node : ast) (w : world) (c : ast) (w' : world) (e : exception) :
  starts node w c w' ->
  (NodeVisitor_visit c w').1 = Raises e ->
  NodeVisitor_visit node w = (Raises e, (NodeVisitor_visit c w').2).
Proof.
  intros Hstarts Hc.
  destruct Hstarts as [node w before c after w' Hgen Hchildren Hbefore
                      |names id ctx rest value w w' Hnames
                      |name fargs before c after decorator_list returns w w' Hnone Hbefore].
  - rewrite (NodeVisitor_visit_generic _ _ Hgen), generic_visit_follows. cbn zeta.
    rewrite Hchildren, for_each_app, Hbefore, for_each_cons_item, Hc. reflexivity.
  - cbn [NodeVisitor_visit]. unfold visit_Assign, bind at 1.
    rewrite for_each_app, Hnames, for_each_cons_target. cbn zeta.
    by rewrite Hc.
  - cbn [NodeVisitor_visit]. rewrite visit_FunctionDef_entry by done. unfold bind at 1.
    rewrite for_each_app, Hbefore, for_each_cons_stmt, Hc. reflexivity.
Qed.

Lemma reaches_raises (node : ast) (w : world) (d : ast) (w' : world) (e : exception) :
  reaches node w d w' ->
  (NodeVisitor_visit d w').1 = Raises e ->
  NodeVisitor_visit node w = (Raises e, (NodeVisitor_visit d w').2).
Proof.
  induction 1 as [node w|node w c w1 d w2 Hstarts _ IH]; intros Hd.
  - rewrite <- Hd. by destruct (NodeVisitor_visit node w).
  - specialize (IH Hd).
    rewrite (starts_raises _ _ _ _ e Hstarts); by rewrite IH.
Qed.

Lemma visit_follows (node : ast) (w : world) :
  visit NodeVisitor_visit node w
  = (match (NodeVisitor_visit node w).1 with
     | Returns _ => Returns PyNone
     | Raises e => Raises e
     end, (NodeVisitor_visit node w).2).
Proof.
  cbv [visit bind ret]. by destruct (NodeVisitor_visit node w) as [[x|e] w1].
Qed.

(** ** Assignments, once more *)



(** C8, as the code has it. An assignment with a target that is not a bare
    name never completes, and what it raises is settled by the targets
    before that one. It fails as the assignment of the same right-hand side
    to those targets fails, when that fails; when that completes, and so at
    once when there is no target before, it raises [NotImplementedError] for
    the target. *)
Theorem visit_Assign_non_name_target (names : list ast) (target : ast)
    (rest : list ast) (value : ast) (w : world) :
  isinstance_Name target = false ->
  NodeVisitor_visit (Assign (names ++ target :: rest) value) w
  = match NodeVisitor_visit (Assign names value) w with
    | (Returns _, w') =>
        (Raises (NotImplementedError (Unimplemented_assignment_target target)), w')
    | (Raises e, w') => (Raises e, w')
    end
  /\ NodeVisitor_visit (Assign (target :: rest) value) w
     = (Raises (NotImplementedError (Unimplemented_assignment_target target)), w).
Proof.
  intros Htarget.
  assert (forall w0,
            for_each (visit_Assign_target NodeVisitor_visit value) (target :: rest) w0
            = (Raises (NotImplementedError (Unimplemented_assignment_target target)), w0))
    as Hhere.
  { intros w0. cbn [for_each]. unfold bind. by destruct target. }
  split.
  - cbn [NodeVisitor_visit]. unfold visit_Assign, bind. rewrite for_each_app.
    destruct (for_each _ names w) as [[u|e] w1]; [|done]. by rewrite Hhere.
  - cbn [NodeVisitor_visit]. unfold visit_Assign, bind. by rewrite Hhere.
Qed.

Lemma visit_Assign_non_name_target_witness :
  let names := [Name "a" Store] in
  let target := Node "Attribute" [Name "b" Load; Store] in
  let w := {| self := __init__; stdout := [] |} in
  isinstance_Name target = false /\
  NodeVisitor_visit (Assign (names ++ target :: []) Constant) w
  = match NodeVisitor_visit (Assign names Constant) w with
    | (Returns _, w') =>
        (Raises (NotImplementedError (Unimplemented_assignment_target target)), w')
    | (Raises e, w') => (Raises e, w')
    end.
Proof.
  intros names target w.
  assert (isinstance_Name target = false) as Htarget by reflexivity.
  split; [exact Htarget|].
  exact (proj1 (visit_Assign_non_name_target names target [] Constant w Htarget)).
Defined.

(** ** Name references, where the encoding evaluates them *)

(** C7, as the code has it. Take any name reference whose visit the
    encoding of a tree starts, in the world in which it starts. If the name
    is bound, the reference resolves to whatever the environment binds it
    to at that moment. If it is unbound, the reference raises the
    [ValueError] "Undefined variable" and the whole encoding ends with that
    exception, the visitor being left as it was when the reference was
    evaluated. At the start of a function body, the name of a parameter of
    [args.args] resolves to the constant made for that parameter. *)
Theorem name_reference_resolves (code : ast) (out : list string) (id : string)
    (ctx : ast) (w : world) :
  reaches code {| self := __init__; stdout := out |} (Name id ctx) w ->
  let here := {| self := self w; stdout := stdout w ++ ["name: " +:+ id] |} in
  match env (self w) !! id with
  | Some x => NodeVisitor_visit (Name id ctx) w = (Returns x, here)
  | None =>
      NodeVisitor_visit (Name id ctx) w
      = (Raises (ValueError (Undefined_variable id)), here) /\
      encode code out = (Raises (ValueError (Undefined_variable id)), here)
  end /\
  (forall name fargs body decorator_list returns a ctx' w0,
     a ∈ args fargs ->
     (NodeVisitor_visit (Name (arg a) ctx')
        (function_entry name fargs body decorator_list returns w0)).1
     = Returns (PyZ3 (BitVec ("__arg_" +:+ arg a) 64))).
Proof.
  intros Hreaches here. split.
  - pose proof (visit_Name_follows id ctx w) as Hname. fold here in Hname.
    destruct (env (self w) !! id) as [x|] eqn:Hid; [done|]. split; [done|].
    unfold encode. rewrite visit_follows.
    rewrite (reaches_raises _ _ _ _ (ValueError (Undefined_variable id)) Hreaches);
      by rewrite Hname.
  - intros name fargs body decorator_list returns a ctx' w0 Ha.
    rewrite visit_Name_follows. cbn [fst function_entry self env].
    rewrite lookup_foldl_parameters, decide_True; [done|].
    apply list_elem_of_fmap. by exists a.
Qed.

Lemma name_reference_resolves_witness :
  let w0 := {| self := __init__; stdout := [] |} in
  let w :=
    {| self := self (function_entry "f" (mk_arguments [] [] None [] [] None [])
                       [Return (Some (Name "z" Load))] [] None w0);
       stdout := ["return"] |} in
  reaches return_z w0 (Name "z" Load) w /\
  encode return_z []
  = (Raises (ValueError (Undefined_variable "z")),
     {| self := self w; stdout := ["return"; "name: z"] |}).
Proof.
  intros w0 w.
  assert (reaches return_z w0 (Name "z" Load) w) as Hreaches.
  { eapply reaches_step.
    - apply (starts_stmt "f" (mk_arguments [] [] None [] [] None [])
               [] (Return (Some (Name "z" Load))) [] [] None w0); reflexivity.
    - eapply reaches_step.
      + apply (starts_child (Return (Some (Name "z" Load))) _ [] (Name "z" Load) []);
          reflexivity.
      + apply reaches_self. }
  split; [exact Hreaches|].
  exact (proj2 (proj1 (name_reference_resolves return_z [] "z" Load w Hreaches))).
Defined.

(** C7 fails as written: after [y = 2] the name [y] is bound, and a
    reference to it resolves to [None], which is no symbolic constant. *)
Lemma reference_after_assignment_None :
  let w := (NodeVisitor_visit assign_y {| self := __init__; stdout := [] |}).2 in
  is_Some (env (self w) !! "y") /\
  (NodeVisitor_visit (Name "y" Load) w).1 = Returns PyNone /\
  ~ exists c, (NodeVisitor_visit (Name "y" Load) w).1 = Returns (PyZ3 c).
Proof.
  split; [by eexists|]. split; [reflexivity|].
  intros [c Hc]. vm_compute in Hc. discriminate Hc.
Qed.

(** ** One visitor, several visits *)

Lemma visit_world (node : ast) (w : world) :
  (visit NodeVisitor_visit node w).2 = (NodeVisitor_visit node w).2.
Proof. by rewrite visit_follows. Qed.

(** C9, as the code has it. A visitor made by [__init__] has an empty
    environment, no function definition and a solver without constraints,
    but a visitor holds state from one call of [visit] to the next. One that
    has encoded a function raises "Only one function declaration is allowed"
    on every later function definition and stays as it was. Whatever tree a
    visitor visits next, the names it has bound stay bound, its solver stays
    the same and, once it holds a function definition, so do [fundecl],
    [z3_args], [z3_ret] and [z3_func]. Outside the visitor a call of [visit]
    only appends the lines it prints to standard output, and its outcome
    does not depend on what was printed before. *)
Theorem visitor_state_across_visits (v : SolverVisitor) (code : ast)
    (out : list string) :
  (env __init__ = ∅ /\ fundecl __init__ = None /\ z3_args __init__ = [] /\
   assertions (solver __init__) = []) /\
  (forall name fargs body decorator_list returns
          name' fargs' body' decorator_list' returns',
     let w := (encode (FunctionDef name fargs body decorator_list returns) out).2 in
     visit NodeVisitor_visit
       (FunctionDef name' fargs' body' decorator_list' returns') w
     = (Raises (ValueError Only_one_function_declaration_is_allowed), w)) /\
  (let w' := (visit NodeVisitor_visit code {| self := v; stdout := out |}).2 in
   solver (self w') = solver v /\
   (forall key, is_Some (env v !! key) -> is_Some (env (self w') !! key)) /\
   (is_Some (fundecl v) ->
    fundecl (self w') = fundecl v /\ z3_args (self w') = z3_args v /\
    z3_ret (self w') = z3_ret v /\ z3_func (self w') = z3_func v)) /\
  (let alone := visit NodeVisitor_visit code {| self := v; stdout := [] |} in
   visit NodeVisitor_visit code {| self := v; stdout := out |}
   = (alone.1, {| self := self alone.2; stdout := out ++ stdout alone.2 |})).
Proof.
  split; [done|]. split; [|split].
  - intros name fargs body decorator_list returns
           name' fargs' body' decorator_list' returns' w.
    rewrite visit_follows. subst w.
    by rewrite (visit_FunctionDef_once name fargs body decorator_list returns
                  name' fargs' body' decorator_list' returns' out).
  - cbn zeta. rewrite visit_world. split; [|split].
    + apply (NodeVisitor_visit_same_solver code {| self := v; stdout := out |}).
    + apply (NodeVisitor_visit_keeps_bound code {| self := v; stdout := out |}).
    + apply (NodeVisitor_visit_same_decl code {| self := v; stdout := out |}).
  - assert (stdout_frame (visit NodeVisitor_visit code)) as Hframe.
    { apply stdout_frame_bind; [apply NodeVisitor_visit_stdout_frame|].
      intros _. apply stdout_frame_ret. }
    apply (Hframe v out).
Qed.

Lemma visitor_state_across_visits_witness :
  let v := self (encode CODE2 []).2 in
  let w' := (visit NodeVisitor_visit assign_y {| self := v; stdout := [] |}).2 in
  is_Some (fundecl v) /\
  is_Some (env v !! "x") /\
  is_Some (env (self w') !! "x") /\
  fundecl (self w') = fundecl v.
Proof.
  intros v w'.
  assert (is_Some (fundecl v)) as Hfundecl by (by eexists).
  assert (is_Some (env v !! "x")) as Hx by (by eexists).
  destruct (visitor_state_across_visits v assign_y [])
    as (_ & _ & (_ & Hbound & Hdecl) & _).
  split; [exact Hfundecl|]. split; [exact Hx|].
  split; [exact (Hbound "x" Hx)|exact (proj1 (Hdecl Hfundecl))].
Defined.

(** C9 fails as written: the visitor that has encoded [CODE2] still binds
    [x] and raises on [CODE1], which a new visitor encodes. *)
Lemma second_function_same_visitor :
  let w := (encode CODE2 []).2 in
  (encode CODE1 []).1 = Returns PyNone /\
  env (self w) !! "x" = Some (PyZ3 (BitVec "__arg_x" 64)) /\
  (visit NodeVisitor_visit CODE1 w).1
  = Raises (ValueError Only_one_function_declaration_is_allowed) /\
  (visit NodeVisitor_visit CODE1 w).1 <> (encode CODE1 []).1.
Proof.
  split; [reflexivity|]. split; [reflexivity|]. split; [reflexivity|].
  vm_compute. discriminate.
Qed.

(** ** Expressions and straight-line bodies, outcome by outcome *)

(** X10. Visiting an expression built from names, subscripts, binary
    operations and nodes of classes without a visitor method leaves the
    visitor's fields as they were, however the visit ends. When the visit
    returns, every name of the expression is bound. When it raises a
    [ValueError] or a [NotImplementedError], the exception is the
    [ValueError] "Undefined variable" for the first name, from left to
    right, that is unbound. *)
Theorem visit_expression_outcomes (node : ast) (w : world) :
  is_expression node = true ->
  let r := NodeVisitor_visit node w in
  self r.2 = self w /\
  (forall x, r.1 = Returns x ->
     first_unbound (env (self w)) (loaded_names node) = None) /\
  (forall e, r.1 = Raises e ->
     exists id,
       first_unbound (env (self w)) (loaded_names node) = Some id /\
       e = ValueError (Undefined_variable id)).
Proof.
  intros Hexpr r. subst r.
  destruct (is_expression_visits node Hexpr w) as [Hself Hres].
  split; [done|].
  destruct (first_unbound _ _) as [id|].
  - rewrite Hres. split; [discriminate|].
    intros e [= <-]. by exists id.
  - destruct Hres as [x ->]. split; [done|discriminate].
Qed.

Lemma visit_expression_outcomes_witness :
  let node := BinOp (Name "x" Load) Add (Name "q" Load) in
  let w := (encode CODE2 []).2 in
  is_expression node = true /\
  exists id,
    first_unbound (env (self w)) (loaded_names node) = Some id /\
    ValueError (Undefined_variable "q") = ValueError (Undefined_variable id).
Proof.
  intros node w. split; [reflexivity|].
  exact (proj2 (proj2 (visit_expression_outcomes node w eq_refl))
           (ValueError (Undefined_variable "q")) eq_refl).
Defined.

Lemma visit_Assign_cons_follows (id : string) (ctx : ast) (rest : list ast)
    (value : ast) (w : world) :
  let w0 := {| self := self w; stdout := stdout w ++ ["assign: " +:+ id] |} in
  NodeVisitor_visit (Assign (Name id ctx :: rest) value) w
  = match (NodeVisitor_visit value w0).1 with
    | Returns _ =>
        NodeVisitor_visit (Assign rest value)
          {| self := set_env id PyNone (self (NodeVisitor_visit value w0).2);
             stdout := stdout (NodeVisitor_visit value w0).2 |}
    | Raises e => (Raises e, (NodeVisitor_visit value w0).2)
    end.
Proof.
  cbn [NodeVisitor_visit]. unfold visit_Assign, bind.
  rewrite for_each_cons_target. cbn zeta.
  by destruct (NodeVisitor_visit value _) as [[x|e] w1].
Qed.

Lemma visit_Assign_loop (targets : list ast) (value : ast) (w : world) :
  let loop := for_each (visit_Assign_target NodeVisitor_visit value) targets w in
  NodeVisitor_visit (Assign targets value) w
  = (match loop.1 with Returns _ => Returns PyNone | Raises e => Raises e end,
     loop.2).
Proof.
  cbn [NodeVisitor_visit]. unfold visit_Assign, bind.
  by destruct (for_each _ targets w) as [[u|e] w1].
Qed.

(** X11. An assignment of an expression to one or more bare names
    ([a = b = e]) first visits [e] against the environment as it is before
    the assignment. When that visit raises, the assignment raises the same
    exception and binds nothing, even when a name of [e] is one of the
    targets. When it returns, the assignment returns [None] and the
    environment is the one before the assignment with every target bound
    to [None]. *)
Theorem assign_names_follows (id : string) (ctx : ast) (rest : list ast)
    (value : ast) (w : world) :
  is_expression value = true ->
  Forall (fun t => isinstance_Name t = true) rest ->
  let targets := Name id ctx :: rest in
  let rhs :=
    NodeVisitor_visit value
      {| self := self w; stdout := stdout w ++ ["assign: " +:+ id] |} in
  let r := NodeVisitor_visit (Assign targets value) w in
  match rhs.1 with
  | Returns _ =>
      r.1 = Returns PyNone /\
      env (self r.2) = bind_targets (env (self w)) targets
  | Raises e => r = (Raises e, rhs.2) /\ self r.2 = self w
  end.
Proof.
  intros Hexpr Hrest targets rhs r. subst targets rhs r.
  rewrite visit_Assign_cons_follows. cbn zeta.
  set (w0 := {| self := self w; stdout := _ |}).
  destruct (is_expression_visits value Hexpr w0) as [Hself Hres].
  change (env (self w0)) with (env (self w)) in Hres.
  change (self w0) with (self w) in Hself.
  destruct (NodeVisitor_visit value w0).1 as [x|e] eqn:Hrhs; [|done].
  destruct (first_unbound (env (self w)) (loaded_names value)) as [id0|] eqn:Hfirst;
    [discriminate Hres|].
  set (w1 := {| self := set_env id PyNone _; stdout := _ |}).
  pose proof (for_each_name_targets value rest Hexpr Hrest w1) as Hloop.
  assert (env (self w1) = <[id := PyNone]> (env (self w))) as Henv
    by (cbn; by rewrite Hself).
  rewrite Henv, (first_unbound_insert _ _ _ _ Hfirst) in Hloop.
  destruct Hloop as [Hres1 Henv1].
  rewrite visit_Assign_loop. cbn zeta. rewrite Hres1. cbn [fst snd].
  split; [done|]. by rewrite Henv1.
Qed.

Lemma assign_names_follows_witness :
  let w := (encode CODE2 []).2 in
  let r :=
    NodeVisitor_visit
      (Assign [Name "a" Store; Name "b" Store] (BinOp (Name "x" Load) Add Constant)) w in
  is_expression (BinOp (Name "x" Load) Add Constant) = true /\
  Forall (fun t => isinstance_Name t = true) [Name "b" Store] /\
  r.1 = Returns PyNone /\
  env (self r.2)
  = bind_targets (env (self w)) [Name "a" Store; Name "b" Store].
Proof.
  intros w r.
  assert (Forall (fun t => isinstance_Name t = true) [Name "b" Store]) as Hrest
    by (constructor 2; [reflexivity|constructor 1]).
  split; [reflexivity|]. split; [exact Hrest|].
  exact (assign_names_follows "a" Store [Name "b" Store]
           (BinOp (Name "x" Load) Add Constant) w eq_refl Hrest).
Defined.

(** X12. Encoding a function whose body is straight-line (assignments of
    expressions to names, returns of expressions) agrees with a
    use-before-definition check that starts from the parameters of
    [args.args], goes through the statements in order and does not stop at
    a return. When the encoding returns, it returns [None], the check has
    passed, and the environment binds what the check binds. When it raises
    a [ValueError] or a [NotImplementedError], the exception is the
    [ValueError] "Undefined variable" for the first name the check finds
    loaded while unbound. *)
Theorem encode_straight_line_outcomes name fargs body decorator_list returns out :
  Forall (fun stmt => simple_statement stmt = true) body ->
  let r := encode (FunctionDef name fargs body decorator_list returns) out in
  (forall x, r.1 = Returns x ->
     x = PyNone /\ check_names (parameters_env fargs) body = inr (env (self r.2))) /\
  (forall e, r.1 = Raises e ->
     exists id,
       check_names (parameters_env fargs) body = inl id /\
       e = ValueError (Undefined_variable id)).
Proof.
  intros Hbody r. subst r. rewrite encode_FunctionDef_follows. cbn zeta.
  set (w1 := function_entry _ _ _ _ _ _).
  pose proof (for_each_simple_statements body Hbody w1) as Hloop.
  assert (env (self w1) = parameters_env fargs) as Henv by done.
  rewrite Henv in Hloop.
  destruct (check_names (parameters_env fargs) body) as [id|e'].
  - rewrite Hloop. cbn [fst snd]. split; [discriminate|].
    intros e [= <-]. by exists id.
  - destruct Hloop as [Hres <-]. rewrite Hres. cbn [fst snd].
    split; [|discriminate]. by intros x [= <-].
Qed.

Lemma encode_straight_line_outcomes_witness :
  Forall (fun stmt => simple_statement stmt = true)
    [Assign [Name "y" Store; Name "z" Store] (BinOp (Name "x" Load) Add Constant);
     Return (Some (Name "y" Load));
     Assign [Name "w" Store] (Name "q" Load)] /\
  exists id,
    check_names (parameters_env (mk_arguments [] [mk_arg "x" None] None [] [] None []))
      [Assign [Name "y" Store; Name "z" Store] (BinOp (Name "x" Load) Add Constant);
       Return (Some (Name "y" Load));
       Assign [Name "w" Store] (Name "q" Load)]
    = inl id /\
    ValueError (Undefined_variable "q") = ValueError (Undefined_variable id).
Proof.
  assert (Forall (fun stmt => simple_statement stmt = true)
            [Assign [Name "y" Store; Name "z" Store] (BinOp (Name "x" Load) Add Constant);
             Return (Some (Name "y" Load));
             Assign [Name "w" Store] (Name "q" Load)]) as Hbody
    by (repeat (constructor 2; [reflexivity|]); constructor 1).
  split; [exact Hbody|].
  exact (proj2 (encode_straight_line_outcomes "f"
                  (mk_arguments [] [mk_arg "x" None] None [] [] None [])
                  _ [] None [] Hbody)
           (ValueError (Undefined_variable "q")) eq_refl).
Defined.

(** A positional-only parameter is no parameter of [args.args]: in
    [def f(a, /): return a] the name [a] is unbound. *)
Example positional_only_parameter_unbound :
  (encode positional_only_f []).1 = Raises (ValueError (Undefined_variable "a")).
Proof. reflexivity. Qed.
